(** * SliceArray: a chunked, append-only array (librender/SliceArray.h)

    Shallow embedding of [librender::SliceArray<T, BUCKET_SIZE>] and of its
    nested [iterator], followed by the properties of append, growth,
    iteration, sort and reset.

    Conventions.
    - A [Bucket*] is an [option nat]: [None] is [nullptr], [Some a] is the
      address of the [a]-th bucket handed out by the allocator.
    - A C++ [int] is a [Z]; an increment or decrement that leaves the range
      of [int] is undefined behaviour and is reported as [Fault].
    - Loops carry a fuel argument; running out of fuel is [Timeout], which is
      kept apart from [Fault] (null or dangling pointer, index outside the
      item array, dead object, signed overflow). *)

From Stdlib Require Import ZArith Lia Bool Sorted Permutation.
From stdpp Require Import base list sorting.

(** ** Outcome of a computation *)

Inductive result (A : Type) : Type :=
| Ok (a : A)
| Fault
| Timeout.

Arguments Ok {A} a.
Arguments Fault {A}.
Arguments Timeout {A}.

Definition bind {A B : Type} (r : result A) (k : A → result B) : result B :=
  match r with
  | Ok a => k a
  | Fault => Fault
  | Timeout => Timeout
  end.

Notation "'do' x <- r ; k" := (bind r (fun x => k))
  (at level 10, x pattern, r at level 100, k at level 200).

(** [terminates_with r enough P]: the computation [r] does not fault; it
    returns a value that satisfies [P], or it runs out of fuel, and that only
    when the fuel was not [enough]. *)
Definition terminates_with {A : Type} (r : result A) (enough : Prop)
    (P : A → Prop) : Prop :=
  match r with
  | Ok a => P a
  | Fault => False
  | Timeout => ¬ enough
  end.

Definition is_null (p : option nat) : bool :=
  match p with
  | None => true
  | Some _ => false
  end.

Definition ptr_eqb (p q : option nat) : bool :=
  match p, q with
  | None, None => true
  | Some a, Some b => Nat.eqb a b
  | _, _ => false
  end.

Definition INT_MAX : Z := 2147483647.
Definition INT_MIN : Z := -2147483648.

(** [++x] and [--x] on an [int]. *)
Definition int_incr (x : Z) : result Z :=
  if (x <? INT_MAX)%Z then Ok (x + 1)%Z else Fault.

Definition int_decr (x : Z) : result Z :=
  if (INT_MIN <? x)%Z then Ok (x - 1)%Z else Fault.

Section SliceArray.

Context {T : Type}.

(** The value of a default-constructed [T] (what [T items[BUCKET_SIZE]]
    holds in a freshly constructed bucket). *)
Variable default_T : T.

(** [operator>] of the element type. *)
Variable gt : T → T → bool.

(** The template parameter [int BUCKET_SIZE]. *)
Variable BUCKET_SIZE : Z.

(** ** Data *)

(** [struct Bucket]. [constructed] records the lifetime of the object: it
    is set by the constructor and cleared by [~Bucket()]. *)
Record Bucket : Type := mkBucket {
  next : option nat;
  prev : option nat;
  items : list T;
  constructed : bool
}.

(** [class iterator]. *)
Record iterator : Type := mkIterator {
  fBucket : option nat;
  fIndex : Z
}.

(** [class SliceArray], together with the memory its buckets live in.
    [fAllocator] is [true] when a non-null allocator has been installed. *)
Record SliceArray : Type := mkSliceArray {
  memory : list Bucket;
  fFirstBucket : option nat;
  fLastBucket : option nat;
  fNextBucketIndex : Z;
  fAllocator : bool;
  fLock : Z
}.

Definition set_memory (m : list Bucket) (s : SliceArray) : SliceArray :=
  mkSliceArray m (fFirstBucket s) (fLastBucket s) (fNextBucketIndex s)
    (fAllocator s) (fLock s).

Definition set_fFirstBucket (p : option nat) (s : SliceArray) : SliceArray :=
  mkSliceArray (memory s) p (fLastBucket s) (fNextBucketIndex s)
    (fAllocator s) (fLock s).

Definition set_fLastBucket (p : option nat) (s : SliceArray) : SliceArray :=
  mkSliceArray (memory s) (fFirstBucket s) p (fNextBucketIndex s)
    (fAllocator s) (fLock s).

Definition set_fNextBucketIndex (i : Z) (s : SliceArray) : SliceArray :=
  mkSliceArray (memory s) (fFirstBucket s) (fLastBucket s) i
    (fAllocator s) (fLock s).

Definition set_fLock (l : Z) (s : SliceArray) : SliceArray :=
  mkSliceArray (memory s) (fFirstBucket s) (fLastBucket s)
    (fNextBucketIndex s) (fAllocator s) l.

(** The object built by [SliceArray() {}]: every member takes its default
    member initializer. *)
Definition empty : SliceArray :=
  mkSliceArray [] None None 0 false 0.

(** [setAllocator(allocator)]; the argument tells whether the pointer is
    non-null. *)
Definition setAllocator (allocator : bool) (s : SliceArray) : SliceArray :=
  mkSliceArray (memory s) (fFirstBucket s) (fLastBucket s)
    (fNextBucketIndex s) allocator (fLock s).

(** ** Memory accesses *)

(** Reading a bucket through a pointer, to get at its link fields. The
    lifetime of the bucket is not looked at here: [reset] itself reads
    [bucket->next] after it has run the destructor. *)
Definition load (s : SliceArray) (p : option nat) : result Bucket :=
  match p with
  | None => Fault
  | Some a =>
      match memory s !! a with
      | Some b => Ok b
      | None => Fault
      end
  end.

Definition store_prev (s : SliceArray) (a : nat) (p : option nat)
  : result SliceArray :=
  match memory s !! a with
  | Some b =>
      Ok (set_memory
            (<[a := mkBucket (next b) p (items b) (constructed b)]> (memory s)) s)
  | None => Fault
  end.

Definition store_next (s : SliceArray) (a : nat) (p : option nat)
  : result SliceArray :=
  match memory s !! a with
  | Some b =>
      Ok (set_memory
            (<[a := mkBucket p (prev b) (items b) (constructed b)]> (memory s)) s)
  | None => Fault
  end.

(** [bucket->items[index]] as an rvalue. The bucket must be a live object
    and the index must lie inside the array. *)
Definition load_item (s : SliceArray) (p : option nat) (index : Z) : result T :=
  do b <- load s p;
  if constructed b && (0 <=? index)%Z && (index <? BUCKET_SIZE)%Z then
    match items b !! Z.to_nat index with
    | Some x => Ok x
    | None => Fault
    end
  else Fault.

(** [bucket->items[index] = value]. *)
Definition store_item (s : SliceArray) (p : option nat) (index : Z) (value : T)
  : result SliceArray :=
  match p with
  | None => Fault
  | Some a =>
      do b <- load s p;
      if constructed b && (0 <=? index)%Z && (index <? BUCKET_SIZE)%Z
         && (Z.to_nat index <? length (items b))
      then
        Ok (set_memory
              (<[a := mkBucket (next b) (prev b)
                        (<[Z.to_nat index := value]> (items b))
                        (constructed b)]> (memory s)) s)
      else Fault
  end.

(** ** The allocator *)

(** What the constructor of [Bucket] builds: both links null (default
    member initializers) and [BUCKET_SIZE] default-constructed items. *)
Definition new_Bucket : Bucket :=
  mkBucket None None (replicate (Z.to_nat BUCKET_SIZE) default_T) true.

(** Modelled from the spec: SliceAllocator.h is not among the sources. The
    spec asks of the allocator one operation, "allocate-and-construct",
    that returns an owning pointer to storage for one chunk on which the
    chunk's constructor has run. The placement [new] on [fAllocator] is
    modelled as handing out the next unused address; nothing is ever released by the
    container. Calling it through a null [fAllocator] is a fault. *)
Definition allocate (s : SliceArray) : result (nat * SliceArray) :=
  if fAllocator s then
    Ok (length (memory s), set_memory (memory s ++ [new_Bucket]) s)
  else Fault.

(** ** Atomic builtins, as seen by a single thread *)

(** [__sync_bool_compare_and_swap(&fNextBucketIndex, oldval, newval)] *)
Definition cas_fNextBucketIndex (s : SliceArray) (oldval newval : Z)
  : bool * SliceArray :=
  if (fNextBucketIndex s =? oldval)%Z
  then (true, set_fNextBucketIndex newval s)
  else (false, s).

(** [__sync_bool_compare_and_swap(&fLock, oldval, newval)] *)
Definition cas_fLock (s : SliceArray) (oldval newval : Z)
  : bool * SliceArray :=
  if (fLock s =? oldval)%Z
  then (true, set_fLock newval s)
  else (false, s).

(** ** allocateBucket *)

(** The lock loop at the head of [allocateBucket], run by a thread that is
    alone: [do { while (fLock) ; } while (!CAS(&fLock, 0, 1))]. Each turn of
    the inner busy wait costs one unit of fuel. *)
Fixpoint lock (fuel : nat) (s : SliceArray) : result SliceArray :=
  match fuel with
  | O => Timeout
  | S fuel' =>
      if (fLock s =? 0)%Z then
        let '(ok, s') := cas_fLock s 0 1 in
        if ok then Ok s' else lock fuel' s'
      else lock fuel' s
  end.

(** The body of [if (fLastBucket) { ... } else { ... }] under the lock. *)
Definition grow_link (s : SliceArray) : result SliceArray :=
  match fLastBucket s with
  | Some last =>
      (* Append to end of chain *)
      do (newBucket, s) <- allocate s;
      do s <- store_prev s newBucket (fLastBucket s);
      do s <- store_next s last (Some newBucket);
      Ok (set_fLastBucket (Some newBucket) s)
  | None =>
      (* Allocate initial bucket *)
      do (newBucket, s) <- allocate s;
      let s := set_fFirstBucket (Some newBucket) s in
      Ok (set_fLastBucket (fFirstBucket s) s)
  end.

Definition allocateBucket (fuel : nat) (s : SliceArray) : result SliceArray :=
  do s <- lock fuel s;
  do s <-
    (if (fNextBucketIndex s =? BUCKET_SIZE)%Z || is_null (fLastBucket s) then
       do s <- grow_link s;
       Ok (set_fNextBucketIndex 0 s)
     else Ok s);
  Ok (set_fLock 0 s).

(** ** append *)

Fixpoint append (fuel : nat) (copyFrom : T) (s : SliceArray)
  : result SliceArray :=
  match fuel with
  | O => Timeout
  | S fuel' =>
      let index := fNextBucketIndex s in
      let bucket := fLastBucket s in
      if (index =? BUCKET_SIZE)%Z || is_null bucket then
        do s <- allocateBucket fuel' s;
        append fuel' copyFrom s
      else
        do index1 <- int_incr index;
        let '(ok, s) := cas_fNextBucketIndex s index index1 in
        if ok then store_item s bucket index copyFrom
        else append fuel' copyFrom s
  end.

(** ** reset *)

(** [bucket->~Bucket()] *)
Definition destroy (b : Bucket) : Bucket :=
  mkBucket (next b) (prev b) (items b) false.

(** A memory obtained from another by running destructors only: no bucket
    is added, released or otherwise changed. *)
Definition only_destroyed (mem mem' : list Bucket) : Prop :=
  Forall2 (fun b b' => b' = b ∨ b' = destroy b) mem mem'.

(** [for (Bucket *bucket = fFirstBucket; bucket; bucket = bucket->next)
       bucket->~Bucket();] *)
Fixpoint reset_loop (fuel : nat) (s : SliceArray) (bucket : option nat)
  : result SliceArray :=
  match fuel with
  | O => Timeout
  | S fuel' =>
      match bucket with
      | None => Ok s
      | Some a =>
          do b <- load s bucket;
          let s := set_memory (<[a := destroy b]> (memory s)) s in
          do b <- load s bucket;
          reset_loop fuel' s (next b)
      end
  end.

Definition reset (fuel : nat) (s : SliceArray) : result SliceArray :=
  do s <- reset_loop fuel s (fFirstBucket s);
  let s := set_fFirstBucket None s in
  let s := set_fLastBucket None s in
  Ok (set_fNextBucketIndex 0 s).

(** ** iterator *)

(** [operator!=] *)
Definition iter_ne (a b : iterator) : bool :=
  negb (ptr_eqb (fBucket a) (fBucket b)) || negb (fIndex a =? fIndex b)%Z.

(** [operator==] *)
Definition iter_eq (a b : iterator) : bool :=
  ptr_eqb (fBucket a) (fBucket b) && (fIndex a =? fIndex b)%Z.

(** [operator++]: [fBucket->next] is read only when the incremented index
    equals [BUCKET_SIZE]. *)
Definition iter_incr (s : SliceArray) (it : iterator) : result iterator :=
  do index <- int_incr (fIndex it);
  if (index =? BUCKET_SIZE)%Z then
    do b <- load s (fBucket it);
    if negb (is_null (next b)) then Ok (mkIterator (next b) 0)
    else Ok (mkIterator (fBucket it) index)
  else Ok (mkIterator (fBucket it) index).

(** [operator--] *)
Definition iter_decr (s : SliceArray) (it : iterator) : result iterator :=
  do index <- int_decr (fIndex it);
  if (index <? 0)%Z then
    do b <- load s (fBucket it);
    Ok (mkIterator (prev b) (BUCKET_SIZE - 1))
  else Ok (mkIterator (fBucket it) index).

(** [operator*], read *)
Definition iter_deref (s : SliceArray) (it : iterator) : result T :=
  load_item s (fBucket it) (fIndex it).

(** [*it = value] *)
Definition iter_assign (s : SliceArray) (it : iterator) (value : T)
  : result SliceArray :=
  store_item s (fBucket it) (fIndex it) value.

(** [next()] and [prev()] work on a copy of the iterator. *)
Definition iter_next (s : SliceArray) (it : iterator) : result iterator :=
  iter_incr s it.

Definition iter_prev (s : SliceArray) (it : iterator) : result iterator :=
  iter_decr s it.

Definition begin (s : SliceArray) : iterator :=
  mkIterator (fFirstBucket s) 0.

Definition end_ (s : SliceArray) : iterator :=
  mkIterator (fLastBucket s) (fNextBucketIndex s).

(** ** sort *)

(** [while (j != begin() && *j.prev() > *j) { swap; --j; }] *)
Fixpoint sort_inner (fuel : nat) (s : SliceArray) (j : iterator)
  : result SliceArray :=
  match fuel with
  | O => Timeout
  | S fuel' =>
      if iter_ne j (begin s) then
        do p <- iter_prev s j;
        do a <- iter_deref s p;
        do b <- iter_deref s j;
        if gt a b then
          (* T temp = *j; *)
          do temp <- iter_deref s j;
          (* *j = *j.prev(); *)
          do p <- iter_prev s j;
          do v <- iter_deref s p;
          do s <- iter_assign s j v;
          (* *j.prev() = temp; *)
          do p <- iter_prev s j;
          do s <- iter_assign s p temp;
          (* --j; *)
          do j <- iter_decr s j;
          sort_inner fuel' s j
        else Ok s
      else Ok s
  end.

(** [for (...; i != e; ++i) { iterator j = i; while ... }]; [inner] is the
    fuel given to each run of the inner loop. *)
Fixpoint sort_outer (inner fuel : nat) (s : SliceArray) (i e : iterator)
  : result SliceArray :=
  match fuel with
  | O => Timeout
  | S fuel' =>
      if iter_ne i e then
        do s <- sort_inner inner s i;
        do i <- iter_incr s i;
        sort_outer inner fuel' s i e
      else Ok s
  end.

Definition sort (fuel : nat) (s : SliceArray) : result SliceArray :=
  if is_null (fFirstBucket s) then Ok s (* Empty *)
  else
    do i <- iter_next s (begin s);
    let e := end_ s in
    sort_outer fuel fuel s i e.

(** ** sort, with the iterators it dereferences

    The loops of [sort] once more, returning next to the final state the
    iterators that [operator*] was applied to, in program order. Erasing
    the list gives [sort] back ([sort_log_erase] below). *)
Fixpoint sort_inner_log (fuel : nat) (s : SliceArray) (j : iterator)
  : result (SliceArray * list iterator) :=
  match fuel with
  | O => Timeout
  | S fuel' =>
      if iter_ne j (begin s) then
        do p <- iter_prev s j;
        do a <- iter_deref s p;
        do b <- iter_deref s j;
        if gt a b then
          do temp <- iter_deref s j;
          do p1 <- iter_prev s j;
          do v <- iter_deref s p1;
          do s <- iter_assign s j v;
          do p2 <- iter_prev s j;
          do s <- iter_assign s p2 temp;
          do j' <- iter_decr s j;
          do r <- sort_inner_log fuel' s j';
          Ok (fst r, [p; j; j; p1; j; p2] ++ snd r)
        else Ok (s, [p; j])
      else Ok (s, [])
  end.

Fixpoint sort_outer_log (inner fuel : nat) (s : SliceArray) (i e : iterator)
  : result (SliceArray * list iterator) :=
  match fuel with
  | O => Timeout
  | S fuel' =>
      if iter_ne i e then
        do r1 <- sort_inner_log inner s i;
        do i <- iter_incr (fst r1) i;
        do r2 <- sort_outer_log inner fuel' (fst r1) i e;
        Ok (fst r2, snd r1 ++ snd r2)
      else Ok (s, [])
  end.

Definition sort_log (fuel : nat) (s : SliceArray)
  : result (SliceArray * list iterator) :=
  if is_null (fFirstBucket s) then Ok (s, [])
  else
    do i <- iter_next s (begin s);
    let e := end_ s in
    sort_outer_log fuel fuel s i e.

(** ** compareElements *)

Definition compareElements (t1 t2 : T) : Z :=
  if gt t1 t2 then 1%Z else (-1)%Z.

(** ** Traversal by a client

    [for (it = a.begin(), e = a.end(); it != e; ++it)] collecting the
    dereferenced iterator at each turn. *)
Fixpoint collect (fuel : nat) (s : SliceArray) (it e : iterator)
  : result (list T) :=
  match fuel with
  | O => Timeout
  | S fuel' =>
      if iter_ne it e then
        do x <- iter_deref s it;
        do it <- iter_incr s it;
        do rest <- collect fuel' s it e;
        Ok (x :: rest)
      else Ok []
  end.

Definition to_list (fuel : nat) (s : SliceArray) : result (list T) :=
  collect fuel s (begin s) (end_ s).

(** [++it], [n] times. *)
Fixpoint advance (n : nat) (s : SliceArray) (it : iterator) : result iterator :=
  match n with
  | O => Ok it
  | S n' =>
      do it <- iter_incr s it;
      advance n' s it
  end.

(** What a three-way comparison returns: positive, negative or zero as the
    first element is greater than, less than or equal to the second. *)
Definition three_way_comparison (compare : T → T → Z) : Prop :=
  ∀ t1 t2,
    (gt t1 t2 = true → (0 < compare t1 t2)%Z)
    ∧ (gt t2 t1 = true → (compare t1 t2 < 0)%Z)
    ∧ (gt t1 t2 = false → gt t2 t1 = false → compare t1 t2 = 0%Z).

(** Appending a sequence of values from one thread, in call order. *)
Fixpoint append_all (fuel : nat) (vs : list T) (s : SliceArray)
  : result SliceArray :=
  match vs with
  | [] => Ok s
  | v :: vs' =>
      do s <- append fuel v s;
      append_all fuel vs' s
  end.

(** ** Operations of the single-threaded interface *)

Inductive op : Type :=
| OpSetAllocator (allocator : bool)
| OpAppend (copyFrom : T)
| OpGrow
| OpReset.

Definition run_op (fuel : nat) (o : op) (s : SliceArray) : result SliceArray :=
  match o with
  | OpSetAllocator allocator => Ok (setAllocator allocator s)
  | OpAppend copyFrom => append fuel copyFrom s
  | OpGrow => allocateBucket fuel s
  | OpReset => reset fuel s
  end.

(** States reached from the freshly constructed container by calls that
    return. *)
Inductive reachable : SliceArray → Prop :=
| reachable_empty : reachable empty
| reachable_step s o fuel s' :
    reachable s → run_op fuel o s = Ok s' → reachable s'.

(** The chain of buckets that starts at a pointer and follows [next] down to
    the null pointer. *)
Inductive is_chain (mem : list Bucket) : option nat → list nat → Prop :=
| is_chain_null : is_chain mem None []
| is_chain_link a b l :
    mem !! a = Some b → is_chain mem (next b) l → is_chain mem (Some a) (a :: l).

(** ** Threads

    [append] as run by several threads over one shared container. Every
    step performs the accesses of one program point to the shared members;
    a schedule picks the thread that moves next. *)

Inductive pc : Type :=
| PcReadIndex    (* index = fNextBucketIndex; *)
| PcReadBucket   (* bucket = fLastBucket; if (index == BUCKET_SIZE || ...) *)
| PcSpin         (* while (fLock) ; *)
| PcLockCas      (* __sync_bool_compare_and_swap(&fLock, 0, 1) *)
| PcGrowCheck    (* if (fNextBucketIndex == BUCKET_SIZE || fLastBucket == nullptr) *)
| PcGrowLink     (* allocate the bucket and link it *)
| PcGrowIndex    (* fNextBucketIndex = 0; *)
| PcUnlock       (* fLock = 0; __sync_synchronize(); continue; *)
| PcCas          (* __sync_bool_compare_and_swap(&fNextBucketIndex, index, index + 1) *)
| PcStore        (* bucket->items[index] = copyFrom; *)
| PcDone.

(** The locals of one call of [append]. *)
Record thread : Type := mkThread {
  t_pc : pc;
  t_index : Z;
  t_bucket : option nat;
  t_copyFrom : T
}.

(** [writes] is a log of the item stores: thread, bucket address, index. *)
Record world : Type := mkWorld {
  shared : SliceArray;
  threads : list thread;
  writes : list (nat * nat * Z)
}.

Definition goto (t : nat) (th : thread) (p : pc) (s : SliceArray) (w : world)
  : world :=
  mkWorld s
    (<[t := mkThread p (t_index th) (t_bucket th) (t_copyFrom th)]> (threads w))
    (writes w).

Definition step (t : nat) (w : world) : result world :=
  match threads w !! t with
  | None => Fault
  | Some th =>
      let s := shared w in
      match t_pc th with
      | PcReadIndex =>
          let th := mkThread PcReadBucket (fNextBucketIndex s) (t_bucket th)
                      (t_copyFrom th) in
          Ok (mkWorld s (<[t := th]> (threads w)) (writes w))
      | PcReadBucket =>
          let th := mkThread (t_pc th) (t_index th) (fLastBucket s)
                      (t_copyFrom th) in
          if (t_index th =? BUCKET_SIZE)%Z || is_null (t_bucket th)
          then Ok (goto t th PcSpin s w)
          else Ok (goto t th PcCas s w)
      | PcSpin =>
          if (fLock s =? 0)%Z then Ok (goto t th PcLockCas s w)
          else Ok (goto t th PcSpin s w)
      | PcLockCas =>
          let '(ok, s) := cas_fLock s 0 1 in
          if ok then Ok (goto t th PcGrowCheck s w)
          else Ok (goto t th PcSpin s w)
      | PcGrowCheck =>
          if (fNextBucketIndex s =? BUCKET_SIZE)%Z || is_null (fLastBucket s)
          then Ok (goto t th PcGrowLink s w)
          else Ok (goto t th PcUnlock s w)
      | PcGrowLink =>
          do s <- grow_link s;
          Ok (goto t th PcGrowIndex s w)
      | PcGrowIndex =>
          Ok (goto t th PcUnlock (set_fNextBucketIndex 0 s) w)
      | PcUnlock =>
          Ok (goto t th PcReadIndex (set_fLock 0 s) w)
      | PcCas =>
          do index1 <- int_incr (t_index th);
          let '(ok, s) := cas_fNextBucketIndex s (t_index th) index1 in
          if ok then Ok (goto t th PcStore s w)
          else Ok (goto t th PcReadIndex s w)
      | PcStore =>
          do s <- store_item s (t_bucket th) (t_index th) (t_copyFrom th);
          match t_bucket th with
          | Some a =>
              Ok (mkWorld s
                    (<[t := mkThread PcDone (t_index th) (t_bucket th)
                              (t_copyFrom th)]> (threads w))
                    (writes w ++ [(t, a, t_index th)]))
          | None => Fault
          end
      | PcDone => Ok w
      end
  end.

Fixpoint run (schedule : list nat) (w : world) : result world :=
  match schedule with
  | [] => Ok w
  | t :: schedule' =>
      do w <- step t w;
      run schedule' w
  end.

(** One thread per value, each about to call [append] once. *)
Definition spawn (s : SliceArray) (values : list T) : world :=
  mkWorld s (map (mkThread PcReadIndex 0 None) values) [].

Definition all_done (w : world) : bool :=
  forallb (fun th => match t_pc th with PcDone => true | _ => false end)
    (threads w).

(** ** Representation invariant

    The chain of a container is made of the [m] buckets allocated since the
    last reset, at the addresses [base], [base + 1], ..., in that order. *)

Definition Bn : nat := Z.to_nat BUCKET_SIZE.

Definition chain_bucket (base m c : nat) (b : Bucket) : Prop :=
  next b = (if decide (S c < m) then Some (base + S c) else None)
  ∧ prev b = match c with O => None | S c' => Some (base + c') end
  ∧ length (items b) = Bn
  ∧ constructed b = true.

Definition wf (base m : nat) (s : SliceArray) : Prop :=
  length (memory s) = base + m
  ∧ (∀ c, c < m →
       ∃ b, memory s !! (base + c) = Some b ∧ chain_bucket base m c b)
  ∧ fFirstBucket s = match m with O => None | S _ => Some base end
  ∧ fLastBucket s = match m with O => None | S m' => Some (base + m') end
  ∧ (0 ≤ fNextBucketIndex s ≤ BUCKET_SIZE)%Z
  ∧ (m = 0 → fNextBucketIndex s = 0%Z)
  ∧ fLock s = 0%Z.

(** All item slots of the chain, in chain order. *)
Definition slots (base : nat) (s : SliceArray) : list T :=
  mjoin (items <$> drop base (memory s)).

(** Number of appended elements. *)
Definition size (m : nat) (s : SliceArray) : nat :=
  match m with
  | O => 0
  | S m' => m' * Bn + Z.to_nat (fNextBucketIndex s)
  end.

Definition contents (base m : nat) (s : SliceArray) : list T :=
  take (size m s) (slots base s).

(** The iterator on slot [k] of the [c]-th bucket of the chain. *)
Definition it_at (base c k : nat) : iterator :=
  mkIterator (Some (base + c)) (Z.of_nat k).

(** Two states that differ in the buckets' contents only. *)
Definition frame (s s' : SliceArray) : Prop :=
  fFirstBucket s' = fFirstBucket s
  ∧ fLastBucket s' = fLastBucket s
  ∧ fNextBucketIndex s' = fNextBucketIndex s
  ∧ fAllocator s' = fAllocator s.

(** An iterator on one of the first [bound] slots of the chain. *)
Definition on_slot (base m bound : nat) (it : iterator) : Prop :=
  ∃ c k, c < m ∧ k < Bn ∧ c * Bn + k < bound ∧ it = it_at base c k.

(** [at_pos base m s n i]: the iterator [i] stands on the [n]-th element,
    or is [end()] when [n] is the number of elements. *)
Definition at_pos (base m : nat) (s : SliceArray) (n : nat) (i : iterator)
  : Prop :=
  (n < size m s
   ∧ ∃ c k, c < m ∧ k < Bn ∧ n = c * Bn + k ∧ i = it_at base c k)
  ∨ (n = size m s ∧ i = end_ s).

(** ** The sort on plain lists

    [sift n l] is the inner loop of [sort] started on index [n] of [l];
    [sift_from cnt n l] is [cnt] turns of the outer loop from index [n]. *)
Fixpoint sift (n : nat) (l : list T) : list T :=
  match n with
  | O => l
  | S p =>
      match l !! p, l !! n with
      | Some a, Some b =>
          if gt a b then sift p (<[p := b]> (<[n := a]> l)) else l
      | _, _ => l
      end
  end.

Fixpoint sift_from (cnt n : nat) (l : list T) : list T :=
  match cnt with
  | O => l
  | S cnt' => sift_from cnt' (S n) (sift n l)
  end.

Definition sort_list (l : list T) : list T :=
  sift_from (length l - 1) 1 l.

(** Insertion of [x] into a prefix kept in reverse order. *)
Fixpoint rins (x : T) (r : list T) : list T :=
  match r with
  | [] => [x]
  | a :: r' => if gt a x then a :: rins x r' else x :: a :: r'
  end.

(** [operator>] is a strict total order. *)
Definition strict_total_order : Prop :=
  (∀ a, gt a a = false)
  ∧ (∀ a b c, gt a b = true → gt b c = true → gt a c = true)
  ∧ (∀ a b, a = b ∨ gt a b = true ∨ gt b a = true).

(** Ascending order: no element is greater than a later one. *)
Definition ascending (l : list T) : Prop :=
  StronglySorted (fun a b => gt a b = false) l.

(** ** Schedules

    A call of [append] passes through at most twelve program points: eight
    when it has to allocate and four for the reservation and the store. In
    the schedule below thread 0 runs its call to the end, then thread 1,
    and so on: the calls do not overlap. *)
Definition sequential_schedule (n : nat) : list nat :=
  concat (map (replicate 12) (seq 0 n)).

(** The single-thread view of thread [t]: [w1] holds that thread alone, [w]
    holds it among the threads [ths]; the write logs are left aside. *)
Definition focus (t : nat) (ths : list thread) (w1 w : world) : Prop :=
  shared w = shared w1
  ∧ ∃ th, threads w1 = [th] ∧ threads w = <[t := th]> ths.

(** ** Predicates on worlds *)

(** A thread inside the section of [allocateBucket] guarded by [fLock]:
    after its compare-and-swap on the lock succeeded and before it has
    written [fLock = 0]. *)
Definition in_growth (th : thread) : bool :=
  match t_pc th with
  | PcGrowCheck | PcGrowLink | PcGrowIndex | PcUnlock => true
  | _ => false
  end.

Definition holders (w : world) : nat :=
  length (List.filter in_growth (threads w)).

(** The slot index a thread has reserved: its compare-and-swap on
    [fNextBucketIndex] succeeded. *)
Definition reservation (th : thread) : option nat :=
  match t_pc th with
  | PcStore | PcDone => Some (Z.to_nat (t_index th))
  | _ => None
  end.

(** What is known of the locals of a thread while the threads append into
    the last bucket [base + m'] without filling it. *)
Definition thread_ok (base m' : nat) (s : SliceArray) (th : thread) : Prop :=
  match t_pc th with
  | PcReadIndex => True
  | PcReadBucket => (0 ≤ t_index th < BUCKET_SIZE)%Z
  | PcCas =>
      (0 ≤ t_index th < BUCKET_SIZE)%Z ∧ t_bucket th = Some (base + m')
  | PcStore => (0 ≤ t_index th)%Z ∧ t_bucket th = Some (base + m')
  | PcDone =>
      (0 ≤ t_index th)%Z ∧ t_bucket th = Some (base + m')
      ∧ slots base s !! (m' * Bn + Z.to_nat (t_index th))
        = Some (t_copyFrom th)
  | _ => False
  end.

(** The invariant of the threads of [spawn s0 vs] when the last bucket of
    [s0] has room for all of [vs]: the reserved indexes are, in some order,
    the ones handed out since [s0]. *)
Definition room_inv (base m' : nat) (s0 : SliceArray) (vs : list T)
    (w : world) : Prop :=
  wf base (S m') (shared w)
  ∧ map t_copyFrom (threads w) = vs
  ∧ (∃ k, fNextBucketIndex (shared w)
          = (fNextBucketIndex s0 + Z.of_nat k)%Z
          ∧ omap reservation (threads w)
            ≡ₚ seq (Z.to_nat (fNextBucketIndex s0)) k)
  ∧ Forall (thread_ok base m' (shared w)) (threads w)
  ∧ take (size (S m') s0) (slots base (shared w)) = contents base (S m') s0.

End SliceArray.

(** ** Instances used in the examples *)

Definition gt_nat (a b : nat) : bool := Nat.ltb b a.

(** Records ordered by their key alone. *)
Definition gt_key (a b : nat * nat) : bool := Nat.ltb (fst b) (fst a).

Definition init {T : Type} : SliceArray (T := T) := setAllocator true empty.

(** The container obtained by appending [vs] from one thread. *)
Definition filled (B : Z) (vs : list nat) : SliceArray :=
  match append_all 0 B 2 vs init with
  | Ok s => s
  | _ => empty
  end.

Definition filled_keys (B : Z) (vs : list (nat * nat)) : SliceArray :=
  match append_all (0, 0) B 2 vs init with
  | Ok s => s
  | _ => empty
  end.

(** Five elements over three buckets of two, four elements that fill two
    buckets of two, and five keyed records in two buckets of four. *)
Definition five : SliceArray := filled 2 [4; 2; 5; 1; 3].

Definition four : SliceArray := filled 2 [1; 2; 3; 4].

Definition keyed : SliceArray :=
  filled_keys 4 [(5, 0); (3, 1); (3, 2); (1, 3); (4, 4)].

(** A schedule of three threads that append 10, 20 and 30 with
    [BUCKET_SIZE = 1]. Thread 0 allocates the first bucket, reads
    [index = 0] and [bucket = 0] and is pre-empted before its
    compare-and-swap; thread 1 appends 20 to slot 0 of bucket 0; thread 2
    finds the bucket full and allocates bucket 1, which sets
    [fNextBucketIndex] back to 0; thread 0 resumes, its compare-and-swap
    from 0 to 1 succeeds and it stores 10 through its stale bucket pointer;
    thread 2 then allocates bucket 2 and appends 30. *)
Definition lost_update_schedule : list nat :=
  replicate 10 0 ++ replicate 4 1 ++ replicate 8 2 ++ replicate 2 0
  ++ replicate 12 2.


Definition sorted_five : SliceArray :=
  match sort gt_nat 2 5 five with
  | Ok s => s
  | _ => empty
  end.

Definition locked_world : world :=
  match run 0 2 [0; 0; 0; 0; 1; 1; 1; 1; 2; 2] (spawn init [10; 20; 30]) with
  | Ok w => w
  | _ => spawn init []
  end.

(** A comparison that is no order at all. *)
Definition gt_parity (a b : nat) : bool := Nat.even (a + b).

(** * Properties *)

Lemma bind_Ok {A B : Type} (r : result A) (k : A → result B) (b : B) :
  bind r k = Ok b → ∃ a, r = Ok a ∧ k a = Ok b.
Proof. destruct r; simpl; intros H; try discriminate. eauto. Qed.

Lemma terminates_with_Ok {A : Type} (r : result A) (enough : Prop)
    (P : A → Prop) :
  terminates_with r enough P → enough → ∃ a, r = Ok a ∧ P a.
Proof. destruct r; simpl; intros H He; [eauto|done|done]. Qed.

Lemma terminates_with_not_Fault {A : Type} (r : result A) (enough : Prop)
    (P : A → Prop) :
  terminates_with r enough P → r ≠ Fault.
Proof. destruct r; simpl; intros H; [done|done|done]. Qed.

(** Writing one slot of one chunk of a concatenation of chunks of equal
    length. *)
Lemma join_insert_same_length {A : Type} (n : nat) (ls : list (list A))
    (c k : nat) (l : list A) (v : A) :
  Forall (λ l, length l = n) ls →
  ls !! c = Some l →
  k < n →
  mjoin (<[c := <[k := v]> l]> ls) = <[c * n + k := v]> (mjoin ls).
Proof.
  intros Hall. revert c. induction Hall as [|l0 ls Hl0 Hall IH]; intros c Hc Hk.
  - discriminate.
  - destruct c as [|c]; simpl in *.
    + injection Hc as ->. rewrite insert_app_l by lia. reflexivity.
    + rewrite (IH c Hc Hk).
      rewrite insert_app_r_alt by lia.
      f_equal. f_equal. lia.
Qed.

Section Properties.

Context {T : Type}.
Variable default_T : T.
Variable gt : T → T → bool.
Variable BUCKET_SIZE : Z.

(** [T items[BUCKET_SIZE]] needs a positive [int]. *)
Hypothesis BUCKET_SIZE_pos : (0 < BUCKET_SIZE)%Z.
Hypothesis BUCKET_SIZE_int : (BUCKET_SIZE ≤ INT_MAX)%Z.

Local Abbreviation Bn := (Bn BUCKET_SIZE).
Local Abbreviation wf := (wf (T := T) BUCKET_SIZE).
Local Abbreviation chain_bucket := (chain_bucket (T := T) BUCKET_SIZE).
Local Abbreviation size := (size (T := T) BUCKET_SIZE).
Local Abbreviation contents := (contents (T := T) BUCKET_SIZE).
Local Abbreviation at_pos := (at_pos (T := T) BUCKET_SIZE).
Local Abbreviation load_item := (load_item (T := T) BUCKET_SIZE).
Local Abbreviation store_item := (store_item (T := T) BUCKET_SIZE).
Local Abbreviation iter_incr := (iter_incr (T := T) BUCKET_SIZE).
Local Abbreviation iter_decr := (iter_decr (T := T) BUCKET_SIZE).
Local Abbreviation iter_deref := (iter_deref (T := T) BUCKET_SIZE).
Local Abbreviation iter_assign := (iter_assign (T := T) BUCKET_SIZE).
Local Abbreviation sort_inner := (sort_inner gt BUCKET_SIZE).
Local Abbreviation sort_outer := (sort_outer gt BUCKET_SIZE).
Local Abbreviation sort := (sort gt BUCKET_SIZE).
Local Abbreviation sort_inner_log := (sort_inner_log gt BUCKET_SIZE).
Local Abbreviation sort_outer_log := (sort_outer_log gt BUCKET_SIZE).
Local Abbreviation sort_log := (sort_log gt BUCKET_SIZE).
Local Abbreviation on_slot := (on_slot BUCKET_SIZE).
Local Abbreviation collect := (collect (T := T) BUCKET_SIZE).
Local Abbreviation to_list := (to_list (T := T) BUCKET_SIZE).
Local Abbreviation new_Bucket := (new_Bucket default_T BUCKET_SIZE).
Local Abbreviation allocate := (allocate default_T BUCKET_SIZE).
Local Abbreviation grow_link := (grow_link default_T BUCKET_SIZE).
Local Abbreviation allocateBucket := (allocateBucket default_T BUCKET_SIZE).
Local Abbreviation append := (append default_T BUCKET_SIZE).
Local Abbreviation append_all := (append_all default_T BUCKET_SIZE).
Local Abbreviation run_op := (run_op default_T BUCKET_SIZE).
Local Abbreviation reachable := (reachable default_T BUCKET_SIZE).
Local Abbreviation sift := (sift gt).
Local Abbreviation sift_from := (sift_from gt).
Local Abbreviation sort_list := (sort_list gt).
Local Abbreviation rins := (rins gt).
Local Abbreviation ascending := (ascending gt).
Local Abbreviation compareElements := (compareElements gt).
Local Abbreviation step := (step default_T BUCKET_SIZE).
Local Abbreviation run := (run default_T BUCKET_SIZE).
Local Abbreviation advance := (advance (T := T) BUCKET_SIZE).
Local Abbreviation three_way_comparison := (three_way_comparison gt).
Local Abbreviation strict_total_order := (strict_total_order gt).

Lemma Bn_pos : 0 < Bn.
Proof. unfold Bn. lia. Qed.

Lemma Bn_Z : Z.of_nat Bn = BUCKET_SIZE.
Proof. unfold Bn. lia. Qed.

(** *** Buckets of a well-formed chain *)

Lemma wf_bucket base m s c :
  wf base m s → c < m →
  ∃ b, memory s !! (base + c) = Some b ∧ chain_bucket base m c b.
Proof. intros (_ & H & _) Hc. auto. Qed.

Lemma wf_chunks base m s :
  wf base m s →
  Forall (λ l, length l = Bn) (items <$> drop base (memory s)).
Proof.
  intros Hwf. apply Forall_lookup. intros c l Hl.
  rewrite list_lookup_fmap, lookup_drop in Hl.
  destruct (memory s !! (base + c)) as [b|] eqn:Hb; [|discriminate].
  injection Hl as <-.
  assert (c < m) as Hc.
  { apply lookup_lt_Some in Hb. destruct Hwf as (Hlen & _). lia. }
  destruct (wf_bucket _ _ _ _ Hwf Hc) as (b' & Hb' & _ & _ & Hlen & _).
  congruence.
Qed.

Lemma slots_length base m s :
  wf base m s → length (slots base s) = m * Bn.
Proof.
  intros Hwf. unfold slots.
  rewrite length_join, (sum_list_fmap_same Bn) by (by eapply wf_chunks).
  rewrite length_fmap, length_drop. destruct Hwf as (-> & _).
  f_equal. lia.
Qed.

Lemma slots_lookup base m s c k b :
  wf base m s → k < Bn →
  memory s !! (base + c) = Some b →
  slots base s !! (c * Bn + k) = items b !! k.
Proof.
  intros Hwf Hk Hb. unfold slots.
  assert (length (items b) = Bn) as Hlen.
  { assert (c < m) as Hc.
    { apply lookup_lt_Some in Hb. destruct Hwf as (Hl & _). lia. }
    destruct (wf_bucket _ _ _ _ Hwf Hc) as (b' & Hb' & _ & _ & Hlen & _).
    congruence. }
  destruct (lookup_lt_is_Some_2 (items b) k) as [x Hx]; [lia|].
  rewrite Hx.
  apply (join_lookup_Some_same_length' Bn); [by eapply wf_chunks|done|].
  exists (items b). split; [|done].
  by rewrite list_lookup_fmap, lookup_drop, Hb.
Qed.

Lemma load_item_at base m s c k :
  wf base m s → c < m → k < Bn →
  ∃ x, load_item s (Some (base + c)) (Z.of_nat k) = Ok x
       ∧ slots base s !! (c * Bn + k) = Some x.
Proof.
  intros Hwf Hc Hk.
  destruct (wf_bucket _ _ _ _ Hwf Hc) as (b & Hb & _ & _ & Hlen & Hlive).
  destruct (lookup_lt_is_Some_2 (items b) k) as [x Hx]; [lia|].
  exists x. split.
  - unfold load_item, load; simpl. rewrite Hb; simpl. rewrite Hlive.
    pose proof Bn_Z.
    replace (0 <=? Z.of_nat k)%Z with true by (symmetry; apply Z.leb_le; lia).
    replace (Z.of_nat k <? BUCKET_SIZE)%Z with true
      by (symmetry; apply Z.ltb_lt; lia).
    simpl. rewrite Nat2Z.id, Hx. reflexivity.
  - rewrite (slots_lookup base m s c k b) by assumption. exact Hx.
Qed.

Lemma store_item_at base m s c k v :
  wf base m s → c < m → k < Bn →
  ∃ s', store_item s (Some (base + c)) (Z.of_nat k) v = Ok s'
        ∧ wf base m s' ∧ frame s s'
        ∧ slots base s' = <[c * Bn + k := v]> (slots base s).
Proof.
  intros Hwf Hc Hk.
  destruct (wf_bucket _ _ _ _ Hwf Hc) as (b & Hb & Hnext & Hprev & Hlen & Hlive).
  pose proof Bn_Z as HBn.
  eexists. split; [|split; [|split]].
  - unfold store_item, load; simpl. rewrite Hb; simpl. rewrite Hlive.
    replace (0 <=? Z.of_nat k)%Z with true by (symmetry; apply Z.leb_le; lia).
    replace (Z.of_nat k <? BUCKET_SIZE)%Z with true
      by (symmetry; apply Z.ltb_lt; lia).
    rewrite Nat2Z.id.
    replace (k <? length (items b)) with true
      by (symmetry; apply Nat.ltb_lt; lia).
    simpl. reflexivity.
  - destruct Hwf as (Hl & Hch & Hf & Hla & Hi & Hi0 & Hlk).
    repeat split; simpl; try assumption; try lia.
    + by rewrite length_insert.
    + intros c' Hc'. destruct (decide (c' = c)) as [->|Hne].
      * eexists. split.
        { apply list_lookup_insert_eq. apply lookup_lt_Some in Hb. lia. }
        repeat split; simpl; try assumption. by rewrite length_insert.
      * destruct (Hch c' Hc') as (b' & Hb' & Hcb').
        exists b'. split; [|assumption].
        rewrite list_lookup_insert_ne by lia. assumption.
  - repeat split.
  - unfold slots; simpl.
    rewrite drop_insert_ge by lia.
    replace (base + c - base) with c by lia.
    rewrite list_fmap_insert; simpl.
    apply join_insert_same_length; [by eapply wf_chunks| |assumption].
    by rewrite list_lookup_fmap, lookup_drop, Hb.
Qed.

(** *** Iterators over a well-formed chain *)

Lemma iter_incr_at base m s c k :
  wf base m s → c < m → k < Bn →
  iter_incr s (it_at base c k)
  = Ok (if decide (S k = Bn ∧ S c < m) then it_at base (S c) 0
        else it_at base c (S k)).
Proof.
  intros Hwf Hc Hk. pose proof Bn_Z as HBn.
  destruct (wf_bucket _ _ _ _ Hwf Hc) as (b & Hb & Hnext & _).
  unfold iter_incr, it_at, int_incr; simpl.
  replace (Z.of_nat k <? INT_MAX)%Z with true
    by (symmetry; apply Z.ltb_lt; lia).
  simpl.
  destruct (Z.eqb_spec (Z.of_nat k + 1) BUCKET_SIZE) as [Heq|Hne].
  - unfold load. rewrite Hb; simpl. rewrite Hnext.
    destruct (decide (S c < m)) as [Hlt|Hge]; simpl.
    + rewrite decide_True by lia. reflexivity.
    + rewrite decide_False by lia. do 2 f_equal. lia.
  - rewrite decide_False by lia. do 2 f_equal. lia.
Qed.

Lemma iter_decr_at base m s c k :
  wf base m s → c < m → k < Bn → 0 < c * Bn + k →
  iter_decr s (it_at base c k)
  = Ok (match k with
        | O => it_at base (c - 1) (Bn - 1)
        | S k' => it_at base c k'
        end).
Proof.
  intros Hwf Hc Hk Hpos. pose proof Bn_Z as HBn.
  destruct (wf_bucket _ _ _ _ Hwf Hc) as (b & Hb & _ & Hprev & _).
  unfold iter_decr, it_at, int_decr; simpl.
  replace (INT_MIN <? Z.of_nat k)%Z with true
    by (symmetry; apply Z.ltb_lt; unfold INT_MIN; lia).
  simpl.
  destruct k as [|k'].
  - simpl. unfold load. rewrite Hb; simpl. rewrite Hprev.
    destruct c as [|c']; [simpl in Hpos; lia|].
    do 2 f_equal; [f_equal; lia|lia].
  - replace (Z.of_nat (S k') - 1 <? 0)%Z with false
      by (symmetry; apply Z.ltb_ge; lia).
    do 2 f_equal. lia.
Qed.

Lemma iter_deref_at base m s c k :
  wf base m s → c < m → k < Bn →
  ∃ x, iter_deref s (it_at base c k) = Ok x
       ∧ slots base s !! (c * Bn + k) = Some x.
Proof. intros. unfold iter_deref, it_at; simpl. by eapply load_item_at. Qed.

Lemma iter_assign_at base m s c k v :
  wf base m s → c < m → k < Bn →
  ∃ s', iter_assign s (it_at base c k) v = Ok s'
        ∧ wf base m s' ∧ frame s s'
        ∧ slots base s' = <[c * Bn + k := v]> (slots base s).
Proof. intros. unfold iter_assign, it_at; simpl. by apply store_item_at. Qed.

Lemma iter_ne_begin base m s c k :
  wf base m s → c < m →
  iter_ne (it_at base c k) (begin s) = negb (Nat.eqb (c * Bn + k) 0).
Proof.
  intros (_ & _ & Hf & _) Hc. pose proof Bn_pos.
  unfold iter_ne, begin, it_at; simpl. rewrite Hf.
  destruct m as [|m']; [lia|]. simpl.
  destruct (Nat.eqb_spec (base + c) base) as [Hb|Hb];
    destruct (Z.eqb_spec (Z.of_nat k) 0) as [Hk|Hk];
    destruct (Nat.eqb_spec (c * Bn + k) 0) as [Hn|Hn];
    simpl; try reflexivity; exfalso.
  - apply Hn. assert (c = 0) as -> by lia. lia.
  - assert (k = 0) by lia. lia.
  - assert (c = 0) by nia. lia.
  - assert (k = 0) by lia. lia.
Qed.

(** The position before slot [(c, k)]. *)
Lemma pred_position c k :
  k < Bn → 0 < c * Bn + k →
  match k with
  | O => (c - 1) * Bn + (Bn - 1)
  | S k' => c * Bn + k'
  end = c * Bn + k - 1
  ∧ match k with O => c - 1 | S _ => c end ≤ c
  ∧ match k with O => Bn - 1 | S k' => k' end < Bn.
Proof.
  intros Hk Hpos. destruct k as [|k'].
  - destruct c as [|c']; [simpl in Hpos; lia|].
    replace (S c' - 1) with c' by lia. simpl. lia.
  - lia.
Qed.

Lemma iter_prev_at base m c k :
  c < m → k < Bn → 0 < c * Bn + k →
  ∃ c' k', c' < m ∧ k' < Bn ∧ c' * Bn + k' = c * Bn + k - 1
           ∧ ∀ s, wf base m s →
                  iter_decr s (it_at base c k) = Ok (it_at base c' k').
Proof.
  intros Hc Hk Hpos.
  destruct (pred_position c k Hk Hpos) as (Hp & Hc' & Hk').
  exists (match k with O => c - 1 | S _ => c end),
         (match k with O => Bn - 1 | S k' => k' end).
  repeat split; try lia.
  - destruct k; lia.
  - intros s Hwf. rewrite (iter_decr_at base m) by assumption.
    destruct k; reflexivity.
Qed.

Lemma frame_refl (s : SliceArray (T := T)) : frame s s.
Proof. repeat split. Qed.

Lemma frame_trans (s1 s2 s3 : SliceArray (T := T)) :
  frame s1 s2 → frame s2 s3 → frame s1 s3.
Proof. unfold frame. intros (?&?&?&?) (?&?&?&?). repeat split; congruence. Qed.

Lemma frame_begin (s s' : SliceArray (T := T)) : frame s s' → begin s' = begin s.
Proof. intros (H & _). unfold begin. by rewrite H. Qed.

Lemma frame_end (s s' : SliceArray (T := T)) : frame s s' → end_ s' = end_ s.
Proof. intros (_ & H1 & H2 & _). unfold end_. by rewrite H1, H2. Qed.

(** *** The inner loop of sort *)

Lemma sift_S p (l : list T) :
  sift (S p) l
  = match l !! p, l !! S p with
    | Some a, Some b =>
        if gt a b then sift p (<[p := b]> (<[S p := a]> l)) else l
    | _, _ => l
    end.
Proof. reflexivity. Qed.

Lemma sort_inner_unfold fuel s j :
  sort_inner (S fuel) s j
  = if iter_ne j (begin s) then
      do p <- iter_prev BUCKET_SIZE s j;
      do a <- iter_deref s p;
      do b <- iter_deref s j;
      if gt a b then
        do temp <- iter_deref s j;
        do p <- iter_prev BUCKET_SIZE s j;
        do v <- iter_deref s p;
        do s <- iter_assign s j v;
        do p <- iter_prev BUCKET_SIZE s j;
        do s <- iter_assign s p temp;
        do j <- iter_decr s j;
        sort_inner fuel s j
      else Ok s
    else Ok s.
Proof. reflexivity. Qed.

Lemma sort_inner_log_unfold fuel s j :
  sort_inner_log (S fuel) s j
  = if iter_ne j (begin s) then
      do p <- iter_prev BUCKET_SIZE s j;
      do a <- iter_deref s p;
      do b <- iter_deref s j;
      if gt a b then
        do temp <- iter_deref s j;
        do p1 <- iter_prev BUCKET_SIZE s j;
        do v <- iter_deref s p1;
        do s <- iter_assign s j v;
        do p2 <- iter_prev BUCKET_SIZE s j;
        do s <- iter_assign s p2 temp;
        do j' <- iter_decr s j;
        do r <- sort_inner_log fuel s j';
        Ok (fst r, [p; j; j; p1; j; p2] ++ snd r)
      else Ok (s, [p; j])
    else Ok (s, []).
Proof. reflexivity. Qed.

(** Erasing the list of dereferenced iterators gives the loop back. *)
Lemma sort_inner_log_erase fuel :
  ∀ s j, sort_inner fuel s j
         = bind (sort_inner_log fuel s j) (λ r, Ok (fst r)).
Proof.
  induction fuel as [|fuel IH]; intros s j; [reflexivity|].
  rewrite sort_inner_unfold, sort_inner_log_unfold.
  destruct (iter_ne j (begin s)); [|reflexivity].
  destruct (iter_prev BUCKET_SIZE s j) as [p| |]; cbn [bind]; [|reflexivity..].
  destruct (iter_deref s p) as [a| |]; cbn [bind]; [|reflexivity..].
  destruct (iter_deref s j) as [b| |]; cbn [bind]; [|reflexivity..].
  destruct (gt a b); [|reflexivity].
  destruct (iter_assign s j a) as [s1| |]; cbn [bind]; [|reflexivity..].
  destruct (iter_prev BUCKET_SIZE s1 j) as [p2| |]; cbn [bind];
    [|reflexivity..].
  destruct (iter_assign s1 p2 b) as [s2| |]; cbn [bind]; [|reflexivity..].
  destruct (iter_decr s2 j) as [j'| |]; cbn [bind]; [|reflexivity..].
  rewrite IH.
  destruct (sort_inner_log fuel s2 j') as [r| |]; reflexivity.
Qed.

Lemma on_slot_mono base m bound bound' it :
  bound ≤ bound' → on_slot base m bound it → on_slot base m bound' it.
Proof.
  intros Hle (c & k & Hc & Hk & Hn & ->). exists c, k. repeat split; lia.
Qed.

Lemma sort_inner_log_at base m n :
  ∀ fuel s c k,
    wf base m s → c < m → k < Bn → n = c * Bn + k →
    terminates_with (sort_inner_log fuel s (it_at base c k)) (n < fuel)
      (λ r, wf base m (fst r) ∧ frame s (fst r)
            ∧ slots base (fst r) = sift n (slots base s)
            ∧ Forall (on_slot base m (S n)) (snd r)).
Proof.
  induction n as [|p IH]; intros fuel s c k Hwf Hc Hk Hn;
    (destruct fuel as [|fuel]; [simpl; lia|]); rewrite sort_inner_log_unfold;
    rewrite (iter_ne_begin base m) by assumption; rewrite <- Hn; simpl negb;
    cbv iota.
  - simpl. auto using frame_refl.
  - destruct (iter_prev_at base m c k) as (c' & k' & Hc' & Hk' & Hp & Hprev);
      [assumption|assumption|lia|].
    assert (on_slot base m (S (S p)) (it_at base c k)) as Hj
      by (exists c, k; repeat split; lia).
    assert (on_slot base m (S (S p)) (it_at base c' k')) as Hpj
      by (exists c', k'; repeat split; lia).
    unfold iter_prev. rewrite (Hprev s Hwf). cbn [bind].
    destruct (iter_deref_at base m s c' k') as (a & Ha & Hla); [assumption..|].
    destruct (iter_deref_at base m s c k) as (b & Hb & Hlb); [assumption..|].
    rewrite Ha; cbn [bind]. rewrite Hb; cbn [bind].
    replace (c' * Bn + k') with p in Hla by lia. rewrite <- Hn in Hlb.
    rewrite sift_S, Hla, Hlb.
    destruct (gt a b).
    2:{ simpl. split; [assumption|]. split; [apply frame_refl|].
        split; [reflexivity|]. repeat constructor; assumption. }
    destruct (iter_assign_at base m s c k a) as (s1 & Hs1 & Hwf1 & Hfr1 & Hsl1);
      [assumption..|].
    rewrite Hs1; cbn [bind]. rewrite (Hprev s1 Hwf1); cbn [bind].
    destruct (iter_assign_at base m s1 c' k' b)
      as (s2 & Hs2 & Hwf2 & Hfr2 & Hsl2); [assumption..|].
    rewrite Hs2; cbn [bind]. rewrite (Hprev s2 Hwf2); cbn [bind].
    pose proof (IH fuel s2 c' k' Hwf2 Hc' Hk' ltac:(lia)) as Hrec.
    destruct (sort_inner_log fuel s2 (it_at base c' k')) as [[s' log]| |];
      simpl in *; [|assumption|lia].
    destruct Hrec as (Hwf' & Hfr' & Hsl' & Hlog).
    split; [assumption|]. split; [|split].
    + eauto using frame_trans.
    + rewrite Hsl', Hsl2, Hsl1. do 3 f_equal; lia.
    + repeat (constructor; [assumption|]).
      eapply Forall_impl; [exact Hlog|].
      intros it. apply on_slot_mono. lia.
Qed.

Lemma sort_inner_at base m n fuel s c k :
  wf base m s → c < m → k < Bn → n = c * Bn + k →
  terminates_with (sort_inner fuel s (it_at base c k)) (n < fuel)
    (λ s', wf base m s' ∧ frame s s'
           ∧ slots base s' = sift n (slots base s)).
Proof.
  intros Hwf Hc Hk Hn. rewrite sort_inner_log_erase.
  pose proof (sort_inner_log_at base m n fuel s c k Hwf Hc Hk Hn) as H.
  destruct (sort_inner_log fuel s (it_at base c k)) as [r| |]; simpl in *;
    [|assumption..].
  destruct H as (H1 & H2 & H3 & _). auto.
Qed.

(** *** Positions *)

Lemma frame_size m (s s' : SliceArray (T := T)) :
  frame s s' → size m s' = size m s.
Proof. intros (_ & _ & H & _). unfold size. by rewrite H. Qed.

Lemma at_pos_frame base m s s' n i :
  frame s s' → at_pos base m s n i → at_pos base m s' n i.
Proof.
  intros Hfr. unfold at_pos.
  rewrite (frame_size m s s' Hfr), (frame_end s s' Hfr). auto.
Qed.

Lemma wf_end base m' s :
  wf base (S m') s →
  end_ s = mkIterator (Some (base + m')) (fNextBucketIndex s).
Proof. intros (_ & _ & _ & Hl & _). unfold end_. by rewrite Hl. Qed.

Lemma wf_begin base m' s :
  wf base (S m') s → begin s = it_at base 0 0.
Proof.
  intros (_ & _ & Hf & _). unfold begin, it_at. rewrite Hf.
  by rewrite Nat.add_0_r.
Qed.

Lemma iter_ne_refl (i : iterator) : iter_ne i i = false.
Proof.
  unfold iter_ne. rewrite Z.eqb_refl.
  destruct (fBucket i); simpl; [by rewrite Nat.eqb_refl|done].
Qed.

Lemma iter_ne_end base m s c k :
  wf base m s → c < m → k < Bn → c * Bn + k < size m s →
  iter_ne (it_at base c k) (end_ s) = true.
Proof.
  intros Hwf Hc Hk Hlt. destruct m as [|m']; [lia|].
  rewrite (wf_end base m' s Hwf). unfold iter_ne, it_at; simpl.
  destruct Hwf as (_ & _ & _ & _ & Hidx & _). unfold size in Hlt.
  destruct (Nat.eqb_spec (base + c) (base + m')) as [Heq|Hne]; [|done].
  assert (c = m') as -> by lia. simpl.
  destruct (Z.eqb_spec (Z.of_nat k) (fNextBucketIndex s)); [lia|done].
Qed.

Lemma iter_incr_pos base m s c k :
  wf base m s → c < m → k < Bn → c * Bn + k < size m s →
  ∃ i, iter_incr s (it_at base c k) = Ok i
       ∧ at_pos base m s (S (c * Bn + k)) i.
Proof.
  intros Hwf Hc Hk Hlt. pose proof Bn_Z as HBn. pose proof Bn_pos as HBp.
  rewrite (iter_incr_at base m) by assumption.
  eexists; split; [reflexivity|].
  destruct m as [|m']; [lia|].
  pose proof (wf_end base m' s Hwf) as Hend.
  pose proof Hwf as (_ & _ & _ & _ & Hidx & _).
  unfold at_pos, size in *.
  destruct (decide (S k = Bn ∧ S c < S m')) as [[Hk1 Hc1]|Hno].
  - assert (S c * Bn ≤ m' * Bn) by (apply Nat.mul_le_mono_r; lia).
    destruct (decide (S (c * Bn + k) < m' * Bn + Z.to_nat (fNextBucketIndex s)))
      as [Hin|Hout].
    + left. split; [assumption|]. exists (S c), 0. repeat split; lia.
    + right. split; [lia|].
      assert (S c = m') as <-.
      { destruct (decide (S c = m')); [done|].
        assert (S (S c) * Bn ≤ m' * Bn) by (apply Nat.mul_le_mono_r; lia).
        lia. }
      rewrite Hend. unfold it_at. f_equal. lia.
  - destruct (decide (S (c * Bn + k) < m' * Bn + Z.to_nat (fNextBucketIndex s)))
      as [Hin|Hout].
    + left. split; [assumption|]. exists c, (S k).
      assert (S k < Bn); [|repeat split; lia].
      destruct (decide (S k = Bn)); [|lia].
      assert (c = m') as -> by lia. lia.
    + right. split; [lia|].
      assert (c = m') as ->.
      { destruct (decide (c = m')); [done|].
        assert (S c * Bn ≤ m' * Bn) by (apply Nat.mul_le_mono_r; lia).
        lia. }
      rewrite Hend. unfold it_at. f_equal. lia.
Qed.

(** *** The outer loop of sort *)

Lemma sort_outer_unfold inner fuel s i e :
  sort_outer inner (S fuel) s i e
  = if iter_ne i e then
      do s <- sort_inner inner s i;
      do i <- iter_incr s i;
      sort_outer inner fuel s i e
    else Ok s.
Proof. reflexivity. Qed.

Lemma sort_outer_log_unfold inner fuel s i e :
  sort_outer_log inner (S fuel) s i e
  = if iter_ne i e then
      do r1 <- sort_inner_log inner s i;
      do i <- iter_incr (fst r1) i;
      do r2 <- sort_outer_log inner fuel (fst r1) i e;
      Ok (fst r2, snd r1 ++ snd r2)
    else Ok (s, []).
Proof. reflexivity. Qed.

Lemma sort_outer_log_erase inner fuel :
  ∀ s i e, sort_outer inner fuel s i e
           = bind (sort_outer_log inner fuel s i e) (λ r, Ok (fst r)).
Proof.
  induction fuel as [|fuel IH]; intros s i e; [reflexivity|].
  rewrite sort_outer_unfold, sort_outer_log_unfold.
  destruct (iter_ne i e); [|reflexivity].
  rewrite sort_inner_log_erase.
  destruct (sort_inner_log inner s i) as [r1| |]; cbn [bind]; [|reflexivity..].
  destruct (iter_incr (fst r1) i) as [i'| |]; cbn [bind]; [|reflexivity..].
  rewrite IH.
  destruct (sort_outer_log inner fuel (fst r1) i' e) as [r2| |]; reflexivity.
Qed.

Lemma sort_outer_log_at base m cnt :
  ∀ inner fuel s i n,
    wf base m s → at_pos base m s n i → n + cnt = size m s →
    terminates_with (sort_outer_log inner fuel s i (end_ s))
      (cnt < fuel ∧ size m s ≤ inner)
      (λ r, wf base m (fst r) ∧ frame s (fst r)
            ∧ slots base (fst r) = sift_from cnt n (slots base s)
            ∧ Forall (on_slot base m (size m s)) (snd r)).
Proof.
  induction cnt as [|cnt IH]; intros inner fuel s i n Hwf Hpos Hn;
    (destruct fuel as [|fuel]; [simpl; lia|]); rewrite sort_outer_log_unfold.
  - destruct Hpos as [[Hlt _]|[_ ->]]; [lia|].
    rewrite iter_ne_refl. simpl. auto using frame_refl.
  - destruct Hpos as [(Hlt & c & k & Hc & Hk & Hnck & ->)|[Heq _]]; [|lia].
    rewrite (iter_ne_end base m) by (assumption || lia).
    pose proof (sort_inner_log_at base m n inner s c k Hwf Hc Hk Hnck) as Hin.
    destruct (sort_inner_log inner s (it_at base c k)) as [[s1 log1]| |];
      simpl in Hin; cbn [bind fst snd]; [|assumption|simpl; lia].
    destruct Hin as (Hwf1 & Hfr1 & Hsl1 & Hlog1).
    pose proof (frame_size m _ _ Hfr1) as Hsz.
    destruct (iter_incr_pos base m s1 c k) as (i' & Hi' & Hpos');
      [assumption..|lia|].
    rewrite Hi'; cbn [bind]. rewrite <- Hnck in Hpos'.
    pose proof (IH inner fuel s1 i' (S n) Hwf1 Hpos' ltac:(lia)) as Hrec.
    rewrite (frame_end _ _ Hfr1) in Hrec.
    destruct (sort_outer_log inner fuel s1 i' (end_ s)) as [[s' log2]| |];
      simpl in *; [|assumption|lia].
    destruct Hrec as (Hwf' & Hfr' & Hsl' & Hlog2).
    split; [assumption|]. split; [|split].
    + eauto using frame_trans.
    + rewrite Hsl', Hsl1. reflexivity.
    + apply Forall_app. split.
      * eapply Forall_impl; [exact Hlog1|].
        intros it. apply on_slot_mono. lia.
      * by rewrite <- Hsz.
Qed.

(** *** sort on a well-formed container *)

Lemma take_sift n :
  ∀ N (l : list T), n < N → take N (sift n l) = sift n (take N l).
Proof.
  induction n as [|p IH]; intros N l HN; [reflexivity|].
  rewrite !sift_S, !lookup_take_lt by lia.
  destruct (l !! p) as [a|]; [|reflexivity].
  destruct (l !! S p) as [b|]; [|reflexivity].
  destruct (gt a b); [|reflexivity].
  rewrite IH by lia. by rewrite !take_insert_lt by lia.
Qed.

Lemma take_sift_from cnt :
  ∀ n N (l : list T),
    n + cnt ≤ N → take N (sift_from cnt n l) = sift_from cnt n (take N l).
Proof.
  induction cnt as [|cnt IH]; intros n N l HN; simpl; [reflexivity|].
  rewrite IH by lia. by rewrite take_sift by lia.
Qed.

Lemma size_le_slots base m s :
  wf base m s → size m s ≤ length (slots base s).
Proof.
  intros Hwf. rewrite (slots_length base m s Hwf).
  pose proof Bn_Z. destruct Hwf as (_ & _ & _ & _ & Hidx & _).
  unfold size. destruct m as [|m']; simpl; lia.
Qed.

Lemma contents_length base m s :
  wf base m s → length (contents base m s) = size m s.
Proof.
  intros Hwf. unfold contents. rewrite length_take.
  pose proof (size_le_slots base m s Hwf). lia.
Qed.

Lemma begin_at_pos base m s :
  wf base m s → at_pos base m s 0 (begin s).
Proof.
  intros Hwf. pose proof Bn_pos. destruct m as [|m'].
  - right. split; [reflexivity|].
    destruct Hwf as (_ & _ & Hf & Hl & _ & Hi0 & _).
    unfold begin, end_. rewrite Hf, Hl, Hi0; reflexivity.
  - rewrite (wf_begin base m' s Hwf).
    destruct (decide (0 < size (S m') s)) as [Hpos|Hz].
    + left. split; [assumption|]. exists 0, 0. repeat split; lia.
    + right. split; [lia|]. rewrite (wf_end base m' s Hwf).
      destruct Hwf as (_ & _ & _ & _ & Hidx & _). unfold size in Hz.
      assert (m' = 0) as -> by nia.
      unfold it_at. f_equal. simpl in Hz. lia.
Qed.

Lemma sort_log_erase fuel s :
  sort fuel s = bind (sort_log fuel s) (λ r, Ok (fst r)).
Proof.
  unfold sort, sort_log. destruct (is_null (fFirstBucket s)); [reflexivity|].
  destruct (iter_next BUCKET_SIZE s (begin s)) as [i| |]; cbn [bind];
    [|reflexivity..].
  apply sort_outer_log_erase.
Qed.

Lemma sort_log_wf base m s fuel :
  wf base m s → m = 0 ∨ 0 < size m s →
  terminates_with (sort_log fuel s) (size m s ≤ fuel)
    (λ r, wf base m (fst r) ∧ frame s (fst r)
          ∧ contents base m (fst r) = sort_list (contents base m s)
          ∧ Forall (on_slot base m (size m s)) (snd r)).
Proof.
  intros Hwf Hne. unfold sort_log. destruct m as [|m'].
  - pose proof Hwf as (_ & _ & Hf & _). rewrite Hf; simpl.
    split; [assumption|]. split; [apply frame_refl|]. split; [reflexivity|].
    constructor.
  - destruct Hne as [?|Hpos]; [discriminate|].
    pose proof Hwf as (_ & _ & Hf & _). rewrite Hf; simpl.
    rewrite (wf_begin base m' s Hwf). unfold iter_next.
    pose proof Bn_pos.
    destruct (iter_incr_pos base (S m') s 0 0) as (i & Hi & Hposi);
      [assumption|lia|lia|exact Hpos|].
    rewrite Hi; cbn [bind]. change (S (0 * Bn + 0)) with 1 in Hposi.
    pose proof (sort_outer_log_at base (S m') (size (S m') s - 1) fuel fuel
                  s i 1 Hwf Hposi ltac:(lia)) as Hout.
    destruct (sort_outer_log fuel fuel s i (end_ s)) as [[s' log]| |];
      unfold terminates_with in *; [|assumption|unfold size in *; lia].
    cbn [fst snd] in *. destruct Hout as (Hwf' & Hfr' & Hsl' & Hlog).
    split; [assumption|]. split; [assumption|]. split; [|assumption].
    unfold contents, sort_list. fold (contents base (S m') s).
    rewrite (contents_length base (S m') s Hwf).
    rewrite (frame_size _ _ _ Hfr'), Hsl'.
    rewrite take_sift_from by lia. reflexivity.
Qed.

Lemma sort_wf base m s fuel :
  wf base m s → m = 0 ∨ 0 < size m s →
  terminates_with (sort fuel s) (size m s ≤ fuel)
    (λ s', wf base m s' ∧ frame s s'
           ∧ contents base m s' = sort_list (contents base m s)).
Proof.
  intros Hwf Hne. rewrite sort_log_erase.
  pose proof (sort_log_wf base m s fuel Hwf Hne) as H.
  destruct (sort_log fuel s) as [r| |]; simpl in *; [|assumption..].
  destruct H as (H1 & H2 & H3 & _). auto.
Qed.

(** *** Traversal of a well-formed container *)

Lemma collect_unfold fuel s it e :
  collect (S fuel) s it e
  = if iter_ne it e then
      do x <- iter_deref s it;
      do it <- iter_incr s it;
      do rest <- collect fuel s it e;
      Ok (x :: rest)
    else Ok [].
Proof. reflexivity. Qed.

Lemma collect_at base m s cnt :
  wf base m s →
  ∀ fuel i n,
    at_pos base m s n i → n + cnt = size m s → cnt < fuel →
    collect fuel s i (end_ s) = Ok (drop n (contents base m s)).
Proof.
  intros Hwf. pose proof (contents_length base m s Hwf) as Hlen.
  induction cnt as [|cnt IH]; intros fuel i n Hpos Hn Hfuel;
    (destruct fuel as [|fuel]; [lia|]); rewrite collect_unfold.
  - destruct Hpos as [[Hlt _]|[_ ->]]; [lia|].
    rewrite iter_ne_refl, drop_ge by lia. reflexivity.
  - destruct Hpos as [(Hlt & c & k & Hc & Hk & Hnck & ->)|[Heq _]]; [|lia].
    rewrite (iter_ne_end base m) by (assumption || lia).
    destruct (iter_deref_at base m s c k) as (x & Hx & Hlx); [assumption..|].
    rewrite Hx; cbn [bind].
    destruct (iter_incr_pos base m s c k) as (i' & Hi' & Hpos');
      [assumption..|lia|].
    rewrite Hi'; cbn [bind]. rewrite <- Hnck in Hpos', Hlx.
    rewrite (IH fuel i' (S n)) by (assumption || lia). cbn [bind].
    f_equal. symmetry. apply drop_S.
    unfold contents. rewrite lookup_take_lt by lia. assumption.
Qed.

Lemma to_list_wf base m s fuel :
  wf base m s → size m s < fuel →
  to_list fuel s = Ok (contents base m s).
Proof.
  intros Hwf Hfuel. unfold to_list.
  rewrite (collect_at base m s (size m s) Hwf fuel (begin s) 0);
    [reflexivity|by apply begin_at_pos|lia|lia].
Qed.

(** *** allocateBucket on a well-formed container *)

Lemma lock_free fuel (s : SliceArray (T := T)) :
  fLock s = 0%Z → lock (S fuel) s = Ok (set_fLock 1 s).
Proof. intros H. simpl. unfold cas_fLock. rewrite H. reflexivity. Qed.

Lemma unlock_free (s : SliceArray (T := T)) :
  fLock s = 0%Z → set_fLock 0 (set_fLock 1 s) = s.
Proof. destruct s; simpl; intros ->; reflexivity. Qed.

Lemma allocateBucket_noop fuel s :
  fLock s = 0%Z → fNextBucketIndex s ≠ BUCKET_SIZE → fLastBucket s ≠ None →
  allocateBucket (S fuel) s = Ok s.
Proof.
  intros Hlk Hidx Hlast. unfold allocateBucket.
  rewrite lock_free by assumption. cbn [bind]. simpl.
  destruct (Z.eqb_spec (fNextBucketIndex s) BUCKET_SIZE); [done|].
  destruct (fLastBucket s); [|done]. simpl.
  by rewrite unlock_free.
Qed.

Lemma slots_empty base (s : SliceArray (T := T)) :
  length (memory s) = base → slots base s = [].
Proof. intros <-. unfold slots. by rewrite drop_all. Qed.

Lemma allocateBucket_first base s fuel :
  wf base 0 s → fAllocator s = true →
  ∃ s', allocateBucket (S fuel) s = Ok s'
        ∧ wf base 1 s' ∧ fAllocator s' = true
        ∧ fNextBucketIndex s' = 0%Z
        ∧ memory s' = memory s ++ [new_Bucket]
        ∧ slots base s' = replicate Bn default_T.
Proof.
  intros (Hlen & _ & Hf & Hl & Hidx & _ & Hlk) Hal.
  unfold allocateBucket. rewrite lock_free by assumption. cbn [bind]. simpl.
  rewrite Hl, orb_true_r. unfold grow_link, allocate; simpl. rewrite Hl, Hal.
  simpl. eexists. split; [reflexivity|]. simpl.
  rewrite Nat.add_0_r in Hlen.
  split; [|split; [assumption|split; [reflexivity|split; [reflexivity|]]]].
  - unfold wf; simpl. rewrite length_app, Hlen; simpl.
    repeat split; try lia; try (f_equal; lia).
    intros c Hc. assert (c = 0) as -> by lia.
    exists new_Bucket. split.
    + rewrite lookup_app_r by lia.
      replace (base + 0 - length (memory s)) with 0 by lia. reflexivity.
    + repeat split; simpl. by rewrite length_replicate.
  - unfold slots; simpl. rewrite drop_app_length' by lia. simpl.
    by rewrite app_nil_r.
Qed.

Lemma allocateBucket_next base m' s fuel :
  wf base (S m') s → fAllocator s = true →
  fNextBucketIndex s = BUCKET_SIZE →
  ∃ s', allocateBucket (S fuel) s = Ok s'
        ∧ wf base (S (S m')) s' ∧ fAllocator s' = true
        ∧ fNextBucketIndex s' = 0%Z
        ∧ length (memory s') = S (length (memory s))
        ∧ slots base s' = slots base s ++ replicate Bn default_T.
Proof.
  intros Hwf Hal Hfull.
  pose proof (wf_chunks base (S m') s Hwf) as Hchunks.
  pose proof Hwf as (Hlen & Hch & Hf & Hl & Hidx & _ & Hlk).
  destruct (Hch m') as (b & Hb & Hbn & Hbp & Hbl & Hbc); [lia|].
  unfold allocateBucket. rewrite lock_free by assumption. cbn [bind]. simpl.
  rewrite Hfull, Z.eqb_refl. simpl.
  unfold grow_link, allocate; simpl. rewrite Hl, Hal. simpl.
  unfold store_prev; simpl.
  rewrite lookup_app_r, Nat.sub_diag by lia. simpl.
  unfold store_next; simpl.
  rewrite list_lookup_insert_ne by lia.
  rewrite lookup_app_l by lia. rewrite Hb. simpl.
  eexists. split; [reflexivity|]. simpl.
  split; [|split; [assumption|split; [reflexivity|split]]].
  - unfold wf; simpl. rewrite !length_insert, length_app, Hlen; simpl.
    repeat split; try lia; try (f_equal; lia); try assumption.
    intros c Hc.
    destruct (decide (c = S m')) as [->|Hne1];
      [|destruct (decide (c = m')) as [->|Hne2]].
    + eexists. split.
      * rewrite list_lookup_insert_ne by lia.
        rewrite <- Hlen. apply list_lookup_insert_eq.
        rewrite length_app; simpl; lia.
      * repeat split; simpl;
          [by rewrite decide_False by lia|assumption
          |by rewrite length_replicate].
    + eexists. split.
      * apply list_lookup_insert_eq.
        rewrite length_insert, length_app; simpl; lia.
      * repeat split; simpl; try assumption.
        by rewrite decide_True by lia.
    + destruct (Hch c) as (b' & Hb' & Hbn' & Hbp' & Hbl' & Hbc'); [lia|].
      exists b'. split.
      * rewrite !list_lookup_insert_ne by lia.
        by rewrite lookup_app_l by lia.
      * repeat split; try assumption.
        rewrite Hbn'. rewrite !decide_True by lia. reflexivity.
  - by rewrite !length_insert, length_app, Nat.add_comm.
  - unfold slots; simpl. rewrite !fmap_drop, !list_fmap_insert; simpl.
    rewrite fmap_app; simpl.
    rewrite (list_insert_id _ (base + m')).
    2:{ rewrite list_lookup_insert_ne by lia.
        rewrite lookup_app_l by (rewrite length_fmap; lia).
        by rewrite list_lookup_fmap, Hb. }
    rewrite (list_insert_id _ (length (memory s))).
    2:{ rewrite lookup_app_r by (rewrite length_fmap; lia).
        by rewrite length_fmap, Nat.sub_diag. }
    rewrite drop_app_le by (rewrite length_fmap; lia).
    rewrite join_app; simpl. by rewrite app_nil_r.
Qed.

Lemma contents_full base m' s :
  wf base (S m') s → fNextBucketIndex s = BUCKET_SIZE →
  contents base (S m') s = slots base s.
Proof.
  intros Hwf Hfull. unfold contents. apply take_ge.
  rewrite (slots_length base (S m') s Hwf). unfold size. rewrite Hfull.
  unfold Bn. lia.
Qed.

(** *** append on a well-formed container *)

Lemma append_unfold fuel copyFrom s :
  append (S fuel) copyFrom s
  = let index := fNextBucketIndex s in
    let bucket := fLastBucket s in
    if (index =? BUCKET_SIZE)%Z || is_null bucket then
      do s <- allocateBucket fuel s;
      append fuel copyFrom s
    else
      do index1 <- int_incr index;
      let '(ok, s) := cas_fNextBucketIndex s index index1 in
      if ok then store_item s bucket index copyFrom
      else append fuel copyFrom s.
Proof. reflexivity. Qed.

Lemma wf_set_index base m' s i :
  wf base (S m') s → (0 ≤ i ≤ BUCKET_SIZE)%Z →
  wf base (S m') (set_fNextBucketIndex i s).
Proof.
  intros (Hlen & Hch & Hf & Hl & Hidx & Hi0 & Hlk) Hi.
  unfold wf; simpl. repeat split; try assumption; try lia.
Qed.

Lemma append_fast base m' s fuel x :
  wf base (S m') s → fNextBucketIndex s ≠ BUCKET_SIZE →
  ∃ s', append (S fuel) x s = Ok s'
        ∧ wf base (S m') s' ∧ fAllocator s' = fAllocator s
        ∧ fNextBucketIndex s' = (fNextBucketIndex s + 1)%Z
        ∧ slots base s' = <[size (S m') s := x]> (slots base s).
Proof.
  intros Hwf Hidx. pose proof Bn_Z as HBn.
  pose proof Hwf as (_ & _ & _ & Hl & Hr & _).
  rewrite append_unfold; cbv zeta. rewrite Hl; simpl.
  destruct (Z.eqb_spec (fNextBucketIndex s) BUCKET_SIZE); [done|]. simpl.
  unfold int_incr.
  replace (fNextBucketIndex s <? INT_MAX)%Z with true
    by (symmetry; apply Z.ltb_lt; lia).
  cbn [bind]. unfold cas_fNextBucketIndex. rewrite Z.eqb_refl.
  destruct (store_item_at base (S m')
              (set_fNextBucketIndex (fNextBucketIndex s + 1) s)
              m' (Z.to_nat (fNextBucketIndex s)) x)
    as (s' & Hs' & Hwf' & (_ & _ & Hi' & Ha') & Hsl');
    [apply wf_set_index; [assumption|lia]|lia|lia|].
  rewrite Z2Nat.id in Hs' by lia.
  exists s'. split; [assumption|]. split; [assumption|].
  split; [assumption|]. split; [assumption|]. exact Hsl'.
Qed.

Lemma take_S_insert {A : Type} (l : list A) n x :
  n < length l → take (S n) (<[n := x]> l) = take n l ++ [x].
Proof.
  intros Hn. rewrite (take_S_r _ _ x) by (by apply list_lookup_insert_eq).
  by rewrite take_insert_ge by lia.
Qed.

Lemma append_fast_contents base m' s fuel x :
  wf base (S m') s → fNextBucketIndex s ≠ BUCKET_SIZE →
  ∃ s', append (S fuel) x s = Ok s'
        ∧ wf base (S m') s' ∧ fAllocator s' = fAllocator s
        ∧ (0 < fNextBucketIndex s')%Z
        ∧ contents base (S m') s' = contents base (S m') s ++ [x].
Proof.
  intros Hwf Hidx. pose proof Bn_Z as HBn.
  destruct (append_fast base m' s fuel x Hwf Hidx)
    as (s' & Hs' & Hwf' & Ha' & Hi' & Hsl').
  pose proof Hwf as (_ & _ & _ & _ & Hr & _).
  exists s'. split; [assumption|]. split; [assumption|].
  split; [assumption|]. split; [lia|].
  unfold contents. rewrite Hsl'.
  replace (size (S m') s') with (S (size (S m') s))
    by (unfold size; rewrite Hi'; lia).
  apply take_S_insert.
  rewrite (slots_length base (S m') s Hwf). unfold size. simpl. lia.
Qed.

Lemma append_wf base m s fuel x :
  wf base m s → fAllocator s = true → 2 ≤ fuel →
  ∃ m' s', append fuel x s = Ok s'
           ∧ wf base m' s' ∧ fAllocator s' = true
           ∧ (0 < fNextBucketIndex s')%Z
           ∧ contents base m' s' = contents base m s ++ [x].
Proof.
  intros Hwf Hal Hfuel. pose proof Bn_Z as HBn. pose proof Bn_pos as HBp.
  destruct fuel as [|[|fuel]]; try lia.
  destruct m as [|m'].
  - (* no bucket yet *)
    destruct (allocateBucket_first base s fuel Hwf Hal)
      as (s1 & Hs1 & Hwf1 & Hal1 & Hi1 & _ & Hsl1).
    destruct (append_fast_contents base 0 s1 fuel x Hwf1)
      as (s' & Hs' & Hwf' & Ha' & Hi' & Hc'); [lia|].
    exists 1, s'. rewrite append_unfold; cbv zeta.
    pose proof Hwf as (Hlen & _ & _ & Hl & _). rewrite Hl, orb_true_r.
    rewrite Hs1; cbn [bind]. split; [assumption|]. split; [assumption|].
    split; [congruence|]. split; [assumption|].
    rewrite Hc'. f_equal. unfold contents. unfold size at 1. rewrite Hi1.
    reflexivity.
  - destruct (decide (fNextBucketIndex s = BUCKET_SIZE)) as [Hfull|Hroom].
    + (* the last bucket is full *)
      destruct (allocateBucket_next base m' s fuel Hwf Hal Hfull)
        as (s1 & Hs1 & Hwf1 & Hal1 & Hi1 & _ & Hsl1).
      destruct (append_fast_contents base (S m') s1 fuel x Hwf1)
        as (s' & Hs' & Hwf' & Ha' & Hi' & Hc'); [lia|].
      exists (S (S m')), s'. rewrite append_unfold; cbv zeta.
      rewrite Hfull, Z.eqb_refl. simpl orb. cbv iota.
      rewrite Hs1; cbn [bind]. split; [assumption|]. split; [assumption|].
      split; [congruence|]. split; [assumption|].
      rewrite Hc'. f_equal.
      rewrite (contents_full base m' s Hwf Hfull).
      unfold contents. unfold size. rewrite Hi1, Hsl1.
      rewrite take_app_length'; [reflexivity|].
      rewrite (slots_length base (S m') s Hwf). lia.
    + destruct (append_fast_contents base m' s (S fuel) x Hwf Hroom)
        as (s' & Hs' & Hwf' & Ha' & Hi' & Hc').
      exists (S m'), s'. split; [assumption|]. split; [assumption|].
      split; [congruence|]. split; assumption.
Qed.

Lemma append_all_wf vs :
  ∀ base m s fuel,
    wf base m s → fAllocator s = true → 2 ≤ fuel →
    ∃ m' s', append_all fuel vs s = Ok s'
             ∧ wf base m' s' ∧ fAllocator s' = true
             ∧ (vs ≠ [] → 0 < fNextBucketIndex s')%Z
             ∧ contents base m' s' = contents base m s ++ vs.
Proof.
  induction vs as [|v vs IH]; intros base m s fuel Hwf Hal Hfuel; simpl.
  - exists m, s. rewrite app_nil_r.
    split; [reflexivity|]. split; [assumption|]. split; [assumption|].
    split; [done|reflexivity].
  - destruct (append_wf base m s fuel v Hwf Hal Hfuel)
      as (m1 & s1 & Hs1 & Hwf1 & Hal1 & Hi1 & Hc1).
    rewrite Hs1; cbn [bind].
    destruct (IH base m1 s1 fuel Hwf1 Hal1 Hfuel)
      as (m' & s' & Hs' & Hwf' & Hal' & Hi' & Hc').
    exists m', s'. split; [assumption|]. split; [assumption|].
    split; [assumption|]. split.
    + intros _. destruct vs as [|v' vs']; [|apply Hi'; discriminate].
      simpl in Hs'. injection Hs' as <-. assumption.
    + rewrite Hc', Hc1, <- app_assoc. reflexivity.
Qed.

Lemma wf_init : wf 0 0 (setAllocator true (empty (T := T))).
Proof.
  unfold wf, setAllocator, empty; simpl.
  repeat split; try lia.
Qed.

(** *** The sort on plain lists is an insertion sort *)

Lemma rins_length x (r : list T) : length (rins x r) = S (length r).
Proof.
  induction r as [|a r IH]; simpl; [reflexivity|].
  destruct (gt a x); simpl; [by rewrite IH|reflexivity].
Qed.

Lemma sift_rins (r : list T) :
  ∀ x post,
    sift (length r) (reverse r ++ x :: post) = reverse (rins x r) ++ post.
Proof.
  induction r as [|a r IH]; intros x post; [reflexivity|].
  cbn [length]. rewrite sift_S.
  rewrite reverse_cons, <- app_assoc. cbn [app].
  assert (length (reverse r) = length r) as Hlen by apply length_reverse.
  rewrite (lookup_app_r _ _ (length r)) by lia.
  rewrite (lookup_app_r _ _ (S (length r))) by lia.
  replace (length r - length (reverse r)) with 0 by lia.
  replace (S (length r) - length (reverse r)) with 1 by lia.
  cbn [lookup list_lookup].
  simpl rins. destruct (gt a x).
  - replace (<[length r := x]> (<[S (length r) := a]>
               (reverse r ++ a :: x :: post)))
      with (reverse r ++ x :: a :: post).
    + rewrite IH, reverse_cons, <- app_assoc. reflexivity.
    + rewrite (insert_app_r_alt _ _ (S (length r))) by lia.
      rewrite (insert_app_r_alt _ _ (length r)) by lia.
      replace (length r - length (reverse r)) with 0 by lia.
      replace (S (length r) - length (reverse r)) with 1 by lia.
      reflexivity.
  - rewrite !reverse_cons, <- !app_assoc. reflexivity.
Qed.

Lemma sift_from_rins (rest : list T) :
  ∀ r,
    sift_from (length rest) (length r) (reverse r ++ rest)
    = reverse (foldl (λ r x, rins x r) r rest).
Proof.
  induction rest as [|x rest IH]; intros r; simpl.
  - by rewrite app_nil_r.
  - rewrite sift_rins. rewrite <- (rins_length x r). apply IH.
Qed.

Lemma sort_list_cons x (rest : list T) :
  sort_list (x :: rest) = reverse (foldl (λ r x, rins x r) [x] rest).
Proof.
  unfold sort_list.
  replace (length (x :: rest) - 1) with (length rest) by (simpl; lia).
  apply (sift_from_rins rest [x]).
Qed.

Lemma rins_perm x (r : list T) : rins x r ≡ₚ x :: r.
Proof.
  induction r as [|a r IH]; simpl; [reflexivity|].
  destruct (gt a x); [|reflexivity].
  rewrite IH. apply perm_swap.
Qed.

Lemma foldl_rins_perm (rest : list T) :
  ∀ r, foldl (λ r x, rins x r) r rest ≡ₚ r ++ rest.
Proof.
  induction rest as [|x rest IH]; intros r; simpl.
  - by rewrite app_nil_r.
  - rewrite IH, rins_perm. apply Permutation_middle.
Qed.

Lemma sort_list_perm (l : list T) : sort_list l ≡ₚ l.
Proof.
  destruct l as [|x rest]; [reflexivity|].
  rewrite sort_list_cons, reverse_Permutation. apply (foldl_rins_perm rest [x]).
Qed.

(** Stability: elements that are pairwise not greater than one another keep
    their order. *)
Lemma rins_filter (P : T → bool) x (r : list T) :
  (∀ a b, P a = true → P b = true → gt a b = false) →
  List.filter P (rins x r) = List.filter P (x :: r).
Proof.
  intros HP. induction r as [|a r IH]; [reflexivity|].
  simpl rins. destruct (gt a x) eqn:Hgt; [|reflexivity].
  cbn [List.filter] in *. rewrite IH.
  destruct (P a) eqn:Ha, (P x) eqn:Hx; try reflexivity.
  rewrite (HP a x Ha Hx) in Hgt. discriminate.
Qed.

Lemma filter_reverse_bool (P : T → bool) (l : list T) :
  List.filter P (reverse l) = reverse (List.filter P l).
Proof.
  induction l as [|a l IH]; [reflexivity|].
  rewrite reverse_cons, List.filter_app, IH. cbn [List.filter].
  destruct (P a); [by rewrite reverse_cons|by rewrite app_nil_r].
Qed.

Lemma foldl_rins_filter (P : T → bool) (rest : list T) :
  (∀ a b, P a = true → P b = true → gt a b = false) →
  ∀ r, List.filter P (foldl (λ r x, rins x r) r rest)
       = reverse (List.filter P rest) ++ List.filter P r.
Proof.
  intros HP. induction rest as [|x rest IH]; intros r; [reflexivity|].
  cbn [foldl]. rewrite IH, (rins_filter P x r HP). cbn [List.filter].
  destruct (P x); [|reflexivity].
  rewrite reverse_cons, <- app_assoc. reflexivity.
Qed.

Lemma sort_list_stable (P : T → bool) (l : list T) :
  (∀ a b, P a = true → P b = true → gt a b = false) →
  List.filter P (sort_list l) = List.filter P l.
Proof.
  intros HP. destruct l as [|x rest]; [reflexivity|].
  rewrite sort_list_cons, filter_reverse_bool, (foldl_rins_filter P rest HP).
  rewrite reverse_app, reverse_involutive.
  cbn [List.filter]. destruct (P x); reflexivity.
Qed.

(** Order: the result is ascending as soon as [operator>] is asymmetric and
    "not greater" is transitive, which a strict total order gives. *)
Section Order.

Hypothesis gt_asym : ∀ a b, gt a b = true → gt b a = false.
Hypothesis le_trans :
  ∀ a b c, gt a b = false → gt b c = false → gt a c = false.

Lemma rins_descending x (r : list T) :
  StronglySorted (λ a b, gt b a = false) r →
  StronglySorted (λ a b, gt b a = false) (rins x r).
Proof.
  induction r as [|a r IH]; intros Hr; simpl.
  - repeat constructor.
  - apply StronglySorted_cons in Hr as [Ha Hr].
    destruct (gt a x) eqn:Hgt.
    + apply StronglySorted_cons. split; [|by apply IH].
      eapply Permutation_Forall; [symmetry; apply rins_perm|].
      constructor; [by apply gt_asym|assumption].
    + apply StronglySorted_cons. split.
      * constructor; [assumption|].
        eapply Forall_impl; [exact Ha|]. intros b Hb. simpl in Hb.
        by apply (le_trans b a x).
      * apply StronglySorted_cons. auto.
Qed.

Lemma foldl_rins_descending (rest : list T) :
  ∀ r, StronglySorted (λ a b, gt b a = false) r →
       StronglySorted (λ a b, gt b a = false) (foldl (λ r x, rins x r) r rest).
Proof.
  induction rest as [|x rest IH]; intros r Hr; simpl; [assumption|].
  by apply IH, rins_descending.
Qed.

Lemma reverse_ascending (r : list T) :
  StronglySorted (λ a b, gt b a = false) r → ascending (reverse r).
Proof.
  unfold ascending. induction r as [|a r IH]; intros Hr.
  - constructor.
  - apply StronglySorted_cons in Hr as [Ha Hr].
    rewrite reverse_cons. apply StronglySorted_app. split; [|split].
    + intros x1 x2 H1 H2. apply list_elem_of_singleton in H2 as ->.
      rewrite Forall_forall in Ha. apply Ha. by apply elem_of_reverse.
    + by apply IH.
    + repeat constructor.
Qed.

Lemma sort_list_ascending (l : list T) : ascending (sort_list l).
Proof.
  destruct l as [|x rest]; [constructor|].
  rewrite sort_list_cons. apply reverse_ascending, foldl_rins_descending.
  repeat constructor.
Qed.

End Order.

Lemma strict_total_order_asym :
  strict_total_order → ∀ a b, gt a b = true → gt b a = false.
Proof.
  intros (Hirr & Htr & _) a b Hab.
  destruct (gt b a) eqn:Hba; [|reflexivity].
  pose proof (Htr a b a Hab Hba) as Haa. rewrite Hirr in Haa. discriminate.
Qed.

Lemma strict_total_order_le_trans :
  strict_total_order →
  ∀ a b c, gt a b = false → gt b c = false → gt a c = false.
Proof.
  intros (Hirr & Htr & Htot) a b c Hab Hbc.
  destruct (gt a c) eqn:Hac; [|reflexivity].
  destruct (Htot a b) as [->|[Hgt|Hgt]]; [congruence|congruence|].
  destruct (Htot b c) as [->|[Hgt'|Hgt']]; [congruence|congruence|].
  pose proof (Htr c b a Hgt' Hgt) as Hca.
  pose proof (Htr a c a Hac Hca) as Haa. rewrite Hirr in Haa. discriminate.
Qed.

(** *** reset on a well-formed container *)

Lemma reset_loop_unfold fuel (s : SliceArray (T := T)) bucket :
  reset_loop (S fuel) s bucket
  = match bucket with
    | None => Ok s
    | Some a =>
        do b <- load s bucket;
        let s := set_memory (<[a := destroy b]> (memory s)) s in
        do b <- load s bucket;
        reset_loop fuel s (next b)
    end.
Proof. reflexivity. Qed.

Lemma only_destroyed_refl (mem : list (Bucket (T := T))) :
  only_destroyed mem mem.
Proof. apply Forall2_same_length_lookup. split; [done|]. intros; left; congruence. Qed.

Lemma reset_loop_at base m cnt :
  ∀ c fuel (s : SliceArray (T := T)),
    length (memory s) = base + m →
    (∀ c', c ≤ c' < m →
       ∃ b, memory s !! (base + c') = Some b
            ∧ next b = if decide (S c' < m) then Some (base + S c') else None) →
    c + cnt = m →
    (cnt < fuel →
     ∃ s', reset_loop fuel s (if decide (c < m) then Some (base + c) else None)
           = Ok s'
           ∧ frame s s' ∧ fLock s' = fLock s
           ∧ only_destroyed (memory s) (memory s'))
    ∧ (fuel ≤ cnt →
       reset_loop fuel s (if decide (c < m) then Some (base + c) else None)
       = Timeout).
Proof.
  induction cnt as [|cnt IH]; intros c fuel s Hlen Hch Hcnt.
  - rewrite decide_False by lia. split.
    + intros Hfuel. destruct fuel as [|fuel]; [lia|].
      exists s. split; [reflexivity|]. split; [apply frame_refl|].
      split; [reflexivity|apply only_destroyed_refl].
    + intros Hfuel. assert (fuel = 0) as -> by lia. reflexivity.
  - rewrite decide_True by lia.
    destruct fuel as [|fuel]; [split; [lia|reflexivity]|].
    destruct (Hch c) as (b & Hb & Hnext); [lia|].
    set (s1 := set_memory (<[base + c := destroy b]> (memory s)) s).
    assert (reset_loop (S fuel) s (Some (base + c))
            = reset_loop fuel s1
                (if decide (S c < m) then Some (base + S c) else None)) as ->.
    { rewrite reset_loop_unfold. unfold load. rewrite Hb. cbn [bind]. cbv zeta.
      cbn [memory set_memory].
      rewrite list_lookup_insert_eq by (apply lookup_lt_Some in Hb; lia).
      cbn [bind]. cbn [next destroy]. rewrite Hnext. reflexivity. }
    destruct (IH (S c) fuel s1) as [Hok Hto].
    { unfold s1; simpl. by rewrite length_insert. }
    { intros c' Hc'. destruct (Hch c') as (b' & Hb' & Hn'); [lia|].
      exists b'. split; [|assumption]. unfold s1; simpl.
      rewrite list_lookup_insert_ne by lia. assumption. }
    { lia. }
    split.
    + intros Hfuel. destruct Hok as (s' & Hs' & Hfr & Hlk & Hod); [lia|].
      exists s'. split; [assumption|]. split; [|split].
      * eapply frame_trans; [|exact Hfr]. unfold s1. repeat split.
      * rewrite Hlk. reflexivity.
      * unfold only_destroyed in *.
        apply Forall2_same_length_lookup.
        apply Forall2_same_length_lookup in Hod as [Hl Hod].
        unfold s1 in Hl, Hod; simpl in Hl, Hod. rewrite length_insert in Hl.
        split; [assumption|]. intros j x y Hx Hy.
        destruct (decide (j = base + c)) as [->|Hne].
        { assert (x = b) as -> by congruence.
          destruct (Hod (base + c) (destroy b) y) as [->| ->];
            [apply list_lookup_insert_eq; apply lookup_lt_Some in Hb; lia
            |assumption|by right|by right]. }
        { apply (Hod j x y); [|assumption].
          rewrite list_lookup_insert_ne by lia. assumption. }
    + intros Hfuel. apply Hto. lia.
Qed.

Lemma reset_wf base m s fuel :
  wf base m s →
  (m < fuel →
   ∃ s', reset fuel s = Ok s'
         ∧ wf (base + m) 0 s' ∧ fAllocator s' = fAllocator s
         ∧ only_destroyed (memory s) (memory s'))
  ∧ (fuel ≤ m → reset fuel s = Timeout).
Proof.
  intros Hwf. pose proof Hwf as (Hlen & Hch & Hf & Hl & Hidx & Hi0 & Hlk).
  destruct (reset_loop_at base m m 0 fuel s) as [Hok Hto].
  { assumption. }
  { intros c' Hc'. destruct (Hch c') as (b & Hb & Hn & _); [lia|]. eauto. }
  { lia. }
  assert (fFirstBucket s = if decide (0 < m) then Some (base + 0) else None)
    as Hfirst.
  { rewrite Hf. destruct m; simpl; [reflexivity|]. by rewrite Nat.add_0_r. }
  unfold reset. rewrite Hfirst. split.
  - intros Hfuel. destruct (Hok Hfuel) as (s' & Hs' & Hfr & Hlk' & Hod).
    rewrite Hs'; cbn [bind]. eexists. split; [reflexivity|].
    split; [|split; [apply Hfr|assumption]].
    unfold wf; simpl. apply Forall2_length in Hod.
    repeat split; try lia; try congruence.
  - intros Hfuel. rewrite (Hto Hfuel). reflexivity.
Qed.

(** *** Every operation that returns keeps the container well formed *)

Lemma allocateBucket_no_allocator fuel s :
  fLock s = 0%Z → fAllocator s = false →
  fNextBucketIndex s = BUCKET_SIZE ∨ fLastBucket s = None →
  allocateBucket (S fuel) s = Fault.
Proof.
  intros Hlk Hal Hgrow. unfold allocateBucket.
  rewrite lock_free by assumption. cbn [bind]. simpl.
  replace ((fNextBucketIndex s =? BUCKET_SIZE)%Z || is_null (fLastBucket s))
    with true.
  - unfold grow_link, allocate; simpl. rewrite Hal.
    destruct (fLastBucket s); reflexivity.
  - symmetry. apply orb_true_iff. destruct Hgrow as [->| ->].
    + left. apply Z.eqb_refl.
    + by right.
Qed.

Lemma allocateBucket_Ok_wf base m s fuel s' :
  wf base m s → allocateBucket fuel s = Ok s' →
  ∃ m', wf base m' s' ∧ fAllocator s' = fAllocator s.
Proof.
  intros Hwf Hrun. pose proof Hwf as (_ & _ & _ & Hl & _ & _ & Hlk).
  destruct fuel as [|fuel]; [discriminate|].
  destruct (decide (fNextBucketIndex s = BUCKET_SIZE ∨ fLastBucket s = None))
    as [Hgrow|Hno].
  - destruct (fAllocator s) eqn:Hal.
    + destruct m as [|m'].
      * destruct (allocateBucket_first base s fuel Hwf Hal)
          as (s1 & Hs1 & Hwf1 & Hal1 & _).
        exists 1. split; congruence.
      * destruct Hgrow as [Hfull|Hnone]; [|congruence].
        destruct (allocateBucket_next base m' s fuel Hwf Hal Hfull)
          as (s1 & Hs1 & Hwf1 & Hal1 & _).
        exists (S (S m')). split; congruence.
    + rewrite allocateBucket_no_allocator in Hrun by assumption. discriminate.
  - rewrite allocateBucket_noop in Hrun
      by (assumption || (intros Heq; apply Hno; auto)).
    injection Hrun as <-. eauto.
Qed.

Lemma append_Ok_wf fuel :
  ∀ base m s x s',
    wf base m s → append fuel x s = Ok s' →
    ∃ m', wf base m' s' ∧ fAllocator s' = fAllocator s.
Proof.
  induction fuel as [|fuel IH]; intros base m s x s' Hwf Hrun; [discriminate|].
  pose proof Hwf as (_ & _ & _ & Hl & _ & Hi0 & _).
  destruct (decide (fNextBucketIndex s = BUCKET_SIZE ∨ m = 0)) as [Hgrow|Hno].
  - rewrite append_unfold in Hrun; cbv zeta in Hrun.
    replace ((fNextBucketIndex s =? BUCKET_SIZE)%Z || is_null (fLastBucket s))
      with true in Hrun.
    + apply bind_Ok in Hrun as (s1 & Hs1 & Hrun).
      destruct (allocateBucket_Ok_wf base m s fuel s1 Hwf Hs1) as (m1 & Hwf1 & Ha1).
      destruct (IH base m1 s1 x s' Hwf1 Hrun) as (m' & Hwf' & Ha').
      exists m'. split; congruence.
    + symmetry. apply orb_true_iff. destruct Hgrow as [->| ->].
      * left. apply Z.eqb_refl.
      * right. by rewrite Hl.
  - destruct m as [|m']; [exfalso; apply Hno; by right|].
    destruct (append_fast base m' s fuel x Hwf) as (s1 & Hs1 & Hwf1 & Ha1 & _);
      [intros Heq; apply Hno; by left|].
    exists (S m'). split; congruence.
Qed.

Lemma wf_setAllocator base m s allocator :
  wf base m s → wf base m (setAllocator allocator s).
Proof. unfold wf, setAllocator; simpl. intros H; exact H. Qed.

Lemma wf_empty : wf 0 0 (empty (T := T)).
Proof. unfold wf, empty; simpl. repeat split; try lia. Qed.

Lemma run_op_wf base m s fuel o s' :
  wf base m s → run_op fuel o s = Ok s' → ∃ base' m', wf base' m' s'.
Proof.
  intros Hwf Hrun. destruct o as [allocator|x| |]; simpl in Hrun.
  - injection Hrun as <-. eauto using wf_setAllocator.
  - destruct (append_Ok_wf fuel base m s x s' Hwf Hrun) as (m' & Hwf' & _).
    eauto.
  - destruct (allocateBucket_Ok_wf base m s fuel s' Hwf Hrun) as (m' & Hwf' & _).
    eauto.
  - destruct (reset_wf base m s fuel Hwf) as [Hok Hto].
    destruct (decide (m < fuel)) as [Hlt|Hge].
    + destruct (Hok Hlt) as (s1 & Hs1 & Hwf1 & _). exists (base + m), 0.
      congruence.
    + rewrite Hto in Hrun by lia. discriminate.
Qed.

Lemma reachable_wf s : reachable s → ∃ base m, wf base m s.
Proof.
  induction 1 as [|s o fuel s' _ (base & m & Hwf) Hrun].
  - exists 0, 0. apply wf_empty.
  - eapply run_op_wf; eassumption.
Qed.

(** *** The chain of a well-formed container *)

Lemma wf_is_chain_from base m s cnt :
  wf base m s →
  ∀ c, c + cnt = m →
       is_chain (memory s)
         (if decide (c < m) then Some (base + c) else None)
         (seq (base + c) cnt).
Proof.
  intros Hwf. induction cnt as [|cnt IH]; intros c Hc.
  - rewrite decide_False by lia. constructor.
  - rewrite decide_True by lia.
    destruct (wf_bucket base m s c Hwf) as (b & Hb & Hn & _); [lia|].
    simpl. apply (is_chain_link _ _ b); [assumption|].
    rewrite Hn. replace (S (base + c)) with (base + S c) by lia.
    apply IH. lia.
Qed.

Lemma wf_is_chain base m s :
  wf base m s →
  is_chain (memory s) (fFirstBucket s) (seq base m)
  ∧ fLastBucket s = last (seq base m).
Proof.
  intros Hwf. pose proof Hwf as (_ & _ & Hf & Hl & _). split.
  - pose proof (wf_is_chain_from base m s m Hwf 0 eq_refl) as H.
    rewrite Nat.add_0_r in H. rewrite Hf.
    destruct m; [exact H|]. rewrite decide_True in H by lia. exact H.
  - rewrite Hl. destruct m as [|m']; [reflexivity|].
    rewrite seq_S, last_snoc. reflexivity.
Qed.

(** *** Containers filled by appends *)

Lemma appended_wf vs fuel s :
  2 ≤ fuel → append_all fuel vs init = Ok s →
  ∃ m, wf 0 m s ∧ fAllocator s = true
       ∧ contents 0 m s = vs ∧ size m s = length vs
       ∧ (m = 0 ∨ 0 < size m s).
Proof.
  intros Hfuel Hrun.
  destruct (append_all_wf vs 0 0 init fuel wf_init eq_refl Hfuel)
    as (m & s' & Hs' & Hwf & Hal & Hidx & Hc).
  assert (s' = s) as -> by congruence.
  change (contents 0 0 init) with (@nil T) in Hc. simpl in Hc.
  exists m. split; [assumption|]. split; [assumption|]. split; [assumption|].
  pose proof (contents_length 0 m s Hwf) as Hlen. rewrite Hc in Hlen.
  split; [congruence|].
  destruct vs as [|v vs'].
  - left. simpl in Hrun. injection Hrun as <-.
    destruct Hwf as (Hl & _). simpl in Hl. lia.
  - right. rewrite <- Hlen. simpl. lia.
Qed.

(** C1. Appending v1..vN from one thread to an empty container with an
    allocator, then walking from begin() to end(), visits exactly N
    elements and yields v1..vN in append order, whatever the number of
    buckets N spans. *)
Theorem append_then_iterate (vs : list T) (fuel : nat) :
  2 ≤ fuel →
  ∃ s, append_all fuel vs init = Ok s
       ∧ ∀ fuel', length vs < fuel' → to_list fuel' s = Ok vs.
Proof.
  intros Hfuel.
  destruct (append_all_wf vs 0 0 init fuel wf_init eq_refl Hfuel)
    as (m & s & Hs & _).
  exists s. split; [assumption|]. intros fuel' Hfuel'.
  destruct (appended_wf vs fuel s Hfuel Hs) as (m' & Hwf & _ & Hc & Hsz & _).
  rewrite (to_list_wf 0 m' s fuel' Hwf) by lia. by rewrite Hc.
Qed.

Lemma sort_appended vs fuel s fuel' :
  2 ≤ fuel → append_all fuel vs init = Ok s →
  terminates_with (sort fuel' s) (length vs ≤ fuel')
    (λ s', ∀ f, length vs < f → to_list f s' = Ok (sort_list vs)).
Proof.
  intros Hfuel Hrun.
  destruct (appended_wf vs fuel s Hfuel Hrun)
    as (m & Hwf & _ & Hc & Hsz & Hne).
  pose proof (sort_wf 0 m s fuel' Hwf Hne) as Hsort.
  destruct (sort fuel' s) as [s'| |]; unfold terminates_with in *;
    [|assumption|lia].
  destruct Hsort as (Hwf' & Hfr' & Hc'). intros f Hf.
  rewrite (to_list_wf 0 m s' f Hwf') by (rewrite (frame_size _ _ _ Hfr'); lia).
  by rewrite Hc', Hc.
Qed.

(** C2. On a container filled by single-threaded appends, sort() leaves a
    permutation of the stored sequence in ascending order of a strict total
    order [operator>]; on the empty container it changes nothing. *)
Theorem sort_sorted_permutation (vs : list T) (fuel : nat) (s : SliceArray) :
  strict_total_order →
  2 ≤ fuel → append_all fuel vs init = Ok s →
  (vs = [] → ∀ fuel', sort fuel' s = Ok s)
  ∧ ∀ fuel', length vs ≤ fuel' →
      ∃ s' l, sort fuel' s = Ok s'
              ∧ (∀ f, length vs < f → to_list f s' = Ok l)
              ∧ l ≡ₚ vs ∧ ascending l.
Proof.
  intros Hord Hfuel Hrun. split.
  - intros -> fuel'. simpl in Hrun. injection Hrun as <-. reflexivity.
  - intros fuel' Hfuel'.
    destruct (terminates_with_Ok _ _ _
                (sort_appended vs fuel s fuel' Hfuel Hrun) Hfuel')
      as (s' & Hs' & Hl).
    exists s', (sort_list vs). split; [assumption|]. split; [assumption|].
    split; [apply sort_list_perm|].
    apply sort_list_ascending.
    + by apply strict_total_order_asym.
    + by apply strict_total_order_le_trans.
Qed.

(** C8. sort() is stable: elements that are pairwise not greater than one
    another (the members of any class [P] of mutually equal elements) come
    out in the order in which they went in. *)
Theorem sort_stable (P : T → bool) (vs : list T) (fuel : nat)
    (s : SliceArray) :
  (∀ a b, P a = true → P b = true → gt a b = false) →
  2 ≤ fuel → append_all fuel vs init = Ok s →
  ∀ fuel', length vs ≤ fuel' →
    ∃ s' l, sort fuel' s = Ok s'
            ∧ (∀ f, length vs < f → to_list f s' = Ok l)
            ∧ List.filter P l = List.filter P vs.
Proof.
  intros HP Hfuel Hrun fuel' Hfuel'.
  destruct (terminates_with_Ok _ _ _
              (sort_appended vs fuel s fuel' Hfuel Hrun) Hfuel')
    as (s' & Hs' & Hl).
  exists s', (sort_list vs). split; [assumption|]. split; [assumption|].
  by apply sort_list_stable.
Qed.

Lemma grow_link_publishes s s1 :
  grow_link s = Ok s1 →
  fLastBucket s1 = Some (length (memory s))
  ∧ fNextBucketIndex s1 = fNextBucketIndex s.
Proof.
  unfold grow_link, allocate.
  destruct (fAllocator s); [|destruct (fLastBucket s); discriminate].
  destruct (fLastBucket s) as [last|]; simpl.
  - unfold store_prev; simpl.
    destruct ((memory s ++ [new_Bucket]) !! length (memory s)); simpl;
      [|discriminate].
    unfold store_next; simpl.
    destruct (_ !! last); simpl; [|discriminate].
    intros [= <-]. split; reflexivity.
  - intros [= <-]. split; reflexivity.
Qed.

(** C4. allocateBucket run alone (nobody holds the lock). When the current
    bucket is full or absent it takes exactly one new bucket from the
    allocator; with a tail it links the new bucket after it through
    prev/next and leaves fFirstBucket alone, without a tail it makes the new
    bucket the first one; the new bucket becomes fLastBucket and
    fNextBucketIndex is set to 0. When the bucket is neither full nor
    absent the call returns the state it was given: nothing is allocated
    and no member or bucket changes. The last part gives the order of the
    two writes as another thread could observe it: the step that links the
    bucket publishes fLastBucket and leaves fNextBucketIndex as it was, and
    only the next step of the thread sets fNextBucketIndex to 0. *)
Theorem allocateBucket_in_isolation (s : SliceArray) (fuel : nat) :
  fLock s = 0%Z → 0 < fuel →
  (fNextBucketIndex s = BUCKET_SIZE ∨ fLastBucket s = None →
   fAllocator s = true →
   (∀ last, fLastBucket s = Some last → last < length (memory s)) →
   ∃ s', allocateBucket fuel s = Ok s'
         ∧ length (memory s') = S (length (memory s))
         ∧ fLastBucket s' = Some (length (memory s))
         ∧ fNextBucketIndex s' = 0%Z
         ∧ fLock s' = 0%Z
         ∧ match fLastBucket s with
           | Some last =>
               fFirstBucket s' = fFirstBucket s
               ∧ (∃ b, memory s !! last = Some b
                       ∧ memory s' !! last
                         = Some (mkBucket (Some (length (memory s))) (prev b)
                                   (items b) (constructed b)))
               ∧ memory s' !! length (memory s)
                 = Some (mkBucket None (Some last)
                           (replicate (Z.to_nat BUCKET_SIZE) default_T) true)
               ∧ ∀ a, a ≠ last → a < length (memory s) →
                      memory s' !! a = memory s !! a
           | None =>
               fFirstBucket s' = Some (length (memory s))
               ∧ memory s' = memory s ++ [new_Bucket]
           end)
  ∧ (fNextBucketIndex s ≠ BUCKET_SIZE → fLastBucket s ≠ None →
     allocateBucket fuel s = Ok s)
  ∧ (∀ t th ths ws s1,
       ths !! t = Some th → t_pc th = PcGrowLink →
       grow_link s = Ok s1 →
       ∃ w1 w2,
         step t (mkWorld s ths ws) = Ok w1 ∧ step t w1 = Ok w2
         ∧ shared w1 = s1
         ∧ fLastBucket s1 = Some (length (memory s))
         ∧ fNextBucketIndex s1 = fNextBucketIndex s
         ∧ shared w2 = set_fNextBucketIndex 0 s1).
Proof.
  intros Hlk Hfuel. destruct fuel as [|fuel]; [lia|]. split; [|split];
    [| |intros t th ths ws s1 Hth Hpc Hs1;
        destruct (grow_link_publishes s s1 Hs1) as [Hpub Hidx];
        unfold step; simpl; rewrite Hth, Hpc, Hs1; cbn [bind];
        eexists; eexists; split; [reflexivity|]; simpl;
        rewrite list_lookup_insert_eq by (by eapply lookup_lt_Some);
        simpl; repeat split; assumption].
  - intros Hgrow Hal Hvalid. unfold allocateBucket.
    rewrite lock_free by assumption. cbn [bind]. simpl.
    replace ((fNextBucketIndex s =? BUCKET_SIZE)%Z || is_null (fLastBucket s))
      with true.
    2:{ symmetry. apply orb_true_iff. destruct Hgrow as [->| ->].
        - left. apply Z.eqb_refl.
        - by right. }
    unfold grow_link, allocate; simpl. rewrite Hal.
    destruct (fLastBucket s) as [last|] eqn:Hlast; simpl.
    + specialize (Hvalid last eq_refl).
      destruct (lookup_lt_is_Some_2 (memory s) last Hvalid) as [b Hb].
      unfold store_prev; simpl.
      rewrite lookup_app_r, Nat.sub_diag by lia. simpl.
      unfold store_next; simpl.
      rewrite list_lookup_insert_ne by lia.
      rewrite lookup_app_l by lia. rewrite Hb. simpl.
      eexists. split; [reflexivity|]. simpl.
      split; [by rewrite !length_insert, length_app, Nat.add_comm|].
      split; [reflexivity|]. split; [reflexivity|]. split; [reflexivity|].
      split; [reflexivity|]. split; [|split].
      * exists b. split; [reflexivity|].
        apply list_lookup_insert_eq.
        rewrite length_insert, length_app; simpl; lia.
      * rewrite list_lookup_insert_ne by lia.
        rewrite Hlast. apply list_lookup_insert_eq.
        rewrite length_app; simpl; lia.
      * intros a Hne Hlt. rewrite !list_lookup_insert_ne by lia.
        by rewrite lookup_app_l by lia.
    + eexists. split; [reflexivity|]. simpl.
      split; [by rewrite length_app, Nat.add_comm|]. repeat split.
  - intros Hidx Hlast. by apply allocateBucket_noop.
Qed.

(** C5. In every state reached from the freshly constructed container by
    calls of setAllocator, append, allocateBucket and reset that return,
    fNextBucketIndex lies in [0, BUCKET_SIZE] and fLastBucket is the last
    bucket of the chain that starts at fFirstBucket; both pointers are null
    exactly when that chain is empty. *)
Theorem reachable_invariant (s : SliceArray) :
  reachable s →
  (0 ≤ fNextBucketIndex s ≤ BUCKET_SIZE)%Z
  ∧ ∃ chain, is_chain (memory s) (fFirstBucket s) chain
             ∧ fLastBucket s = last chain
             ∧ (fFirstBucket s = None ↔ chain = [])
             ∧ (fLastBucket s = None ↔ chain = []).
Proof.
  intros Hreach. destruct (reachable_wf s Hreach) as (base & m & Hwf).
  destruct (wf_is_chain base m s Hwf) as [Hchain Hlast].
  pose proof Hwf as (_ & _ & Hf & Hl & Hidx & _).
  split; [assumption|]. exists (seq base m).
  split; [assumption|]. split; [assumption|].
  rewrite Hf, Hl. destruct m; simpl; split; split; intros; done.
Qed.

Lemma iter_eq_ne (a b : iterator) : iter_eq a b = negb (iter_ne a b).
Proof.
  unfold iter_eq, iter_ne.
  destruct (ptr_eqb (fBucket a) (fBucket b)), (fIndex a =? fIndex b)%Z;
    reflexivity.
Qed.

(** C6. reset() on a reachable state clears fFirstBucket and fLastBucket
    and sets fNextBucketIndex to 0, so that begin() == end(); it hands no
    memory back (every bucket is still there, at most destroyed) and does
    not touch the allocator; an append that follows puts its value at
    logical index 0. *)
Theorem reset_then_append (s : SliceArray) (fuel : nat) :
  reachable s → length (memory s) < fuel →
  ∃ s', reset fuel s = Ok s'
        ∧ fFirstBucket s' = None ∧ fLastBucket s' = None
        ∧ fNextBucketIndex s' = 0%Z
        ∧ iter_eq (begin s') (end_ s') = true
        ∧ only_destroyed (memory s) (memory s')
        ∧ fAllocator s' = fAllocator s
        ∧ (fAllocator s = true →
           ∀ x f, 2 ≤ f →
             ∃ s'', append f x s' = Ok s''
                    ∧ ∀ f', 1 < f' → to_list f' s'' = Ok [x]).
Proof.
  intros Hreach Hfuel. destruct (reachable_wf s Hreach) as (base & m & Hwf).
  pose proof Hwf as (Hlen & _).
  destruct (reset_wf base m s fuel Hwf) as [Hok _].
  destruct Hok as (s' & Hs' & Hwf' & Hal' & Hod); [lia|].
  pose proof Hwf' as (_ & _ & Hf' & Hl' & _ & Hi0' & _).
  exists s'. split; [assumption|]. split; [assumption|]. split; [assumption|].
  split; [auto|]. split.
  { unfold iter_eq, begin, end_; simpl. by rewrite Hf', Hl', Hi0'. }
  split; [assumption|]. split; [assumption|].
  intros Hal x f Hf.
  destruct (append_wf (base + m) 0 s' f x Hwf') as (m' & s'' & Hs'' & Hwf'' & _ & _ & Hc);
    [congruence|assumption|].
  exists s''. split; [assumption|]. intros f' Hfuel'.
  change (contents (base + m) 0 s') with (@nil T) in Hc. simpl in Hc.
  pose proof (contents_length (base + m) m' s'' Hwf'') as Hsz.
  rewrite Hc in Hsz. simpl in Hsz.
  rewrite (to_list_wf (base + m) m' s'' f' Hwf'') by lia. by rewrite Hc.
Qed.

(** *** Walking from begin() to end() *)

Lemma advance_at base m s cnt :
  wf base m s →
  ∀ n i, at_pos base m s n i → n + cnt ≤ size m s →
         ∃ i', advance cnt s i = Ok i' ∧ at_pos base m s (n + cnt) i'.
Proof.
  intros Hwf. induction cnt as [|cnt IH]; intros n i Hpos Hn.
  - exists i. rewrite Nat.add_0_r. split; [reflexivity|assumption].
  - destruct Hpos as [(Hlt & c & k & Hc & Hk & Hnck & ->)|[Heq _]]; [|lia].
    destruct (iter_incr_pos base m s c k) as (i1 & Hi1 & Hpos1);
      [assumption..|lia|].
    rewrite <- Hnck in Hpos1.
    destruct (IH (S n) i1 Hpos1) as (i' & Hi' & Hpos'); [lia|].
    exists i'. simpl. rewrite Hi1; cbn [bind].
    replace (n + S cnt) with (S n + cnt) by lia. auto.
Qed.

Lemma at_pos_eq_end base m s n i :
  wf base m s → at_pos base m s n i →
  iter_eq i (end_ s) = if decide (n = size m s) then true else false.
Proof.
  intros Hwf [(Hlt & c & k & Hc & Hk & Hnck & ->)|[Heq ->]].
  - rewrite decide_False by lia. rewrite iter_eq_ne.
    rewrite (iter_ne_end base m) by (assumption || lia). reflexivity.
  - rewrite decide_True by assumption. by rewrite iter_eq_ne, iter_ne_refl.
Qed.

(** C7. [operator++] adds one to the index and moves to the next bucket,
    with index 0, only when the new index is BUCKET_SIZE and the next
    bucket exists. Hence, when the last bucket of a container is exactly
    full, an iterator incremented through all elements from begin() is
    equal to end(), which is the last bucket at index BUCKET_SIZE, and to
    no earlier position. *)
Theorem iterator_increment :
  (∀ (s : SliceArray) (it : iterator),
     (fIndex it < INT_MAX)%Z →
     ((fIndex it + 1)%Z ≠ BUCKET_SIZE →
      iter_incr s it = Ok (mkIterator (fBucket it) (fIndex it + 1)))
     ∧ ((fIndex it + 1)%Z = BUCKET_SIZE →
        ∀ b, load s (fBucket it) = Ok b →
             iter_incr s it
             = Ok (match next b with
                   | Some n => mkIterator (Some n) 0
                   | None => mkIterator (fBucket it) BUCKET_SIZE
                   end)))
  ∧ (∀ (vs : list T) (fuel : nat) (s : SliceArray),
       2 ≤ fuel → append_all fuel vs init = Ok s →
       fNextBucketIndex s = BUCKET_SIZE →
       advance (length vs) s (begin s) = Ok (end_ s)
       ∧ end_ s = mkIterator (fLastBucket s) BUCKET_SIZE
       ∧ ∀ k, k < length vs →
              ∃ it, advance k s (begin s) = Ok it
                    ∧ iter_eq it (end_ s) = false).
Proof.
  split.
  - intros s it Hmax. unfold iter_incr, int_incr.
    replace (fIndex it <? INT_MAX)%Z with true
      by (symmetry; apply Z.ltb_lt; lia).
    cbn [bind]. split.
    + intros Hne.
      destruct (Z.eqb_spec (fIndex it + 1) BUCKET_SIZE); [done|reflexivity].
    + intros Heq b Hb. rewrite Heq, Z.eqb_refl, Hb. cbn [bind].
      destruct (next b); reflexivity.
  - intros vs fuel s Hfuel Hrun Hfull.
    destruct (appended_wf vs fuel s Hfuel Hrun)
      as (m & Hwf & _ & _ & Hsz & _).
    pose proof (begin_at_pos 0 m s Hwf) as Hbegin.
    split; [|split].
    + destruct (advance_at 0 m s (length vs) Hwf 0 (begin s) Hbegin)
        as (i & Hi & Hpos); [lia|].
      destruct Hpos as [[Hlt _]|[_ ->]]; [simpl in Hlt; lia|assumption].
    + unfold end_. by rewrite Hfull.
    + intros k Hk.
      destruct (advance_at 0 m s k Hwf 0 (begin s) Hbegin)
        as (i & Hi & Hpos); [lia|].
      exists i. split; [assumption|].
      rewrite (at_pos_eq_end 0 m s (0 + k) i Hwf Hpos).
      rewrite decide_False by (simpl; lia). reflexivity.
Qed.

(** C9, amended. compareElements is two-valued: it returns 1 when the first
    element is greater than the second and -1 in every other case, so for
    equal elements it returns the same -1 as for a smaller first element,
    and it never returns 0. *)
Theorem compareElements_two_valued (t1 t2 : T) :
  (compareElements t1 t2 = 1%Z ↔ gt t1 t2 = true)
  ∧ (compareElements t1 t2 = (-1)%Z ↔ gt t1 t2 = false)
  ∧ compareElements t1 t2 ≠ 0%Z.
Proof.
  unfold compareElements. destruct (gt t1 t2); repeat split; done.
Qed.

Lemma on_slot_advance base m s it :
  wf base m s → on_slot base m (size m s) it →
  ∃ n, n < size m s ∧ advance n s (begin s) = Ok it.
Proof.
  intros Hwf (c & k & Hc & Hk & Hn & ->).
  destruct (advance_at base m s (c * Bn + k) Hwf 0 (begin s))
    as (i & Hi & Hpos); [by apply begin_at_pos|lia|].
  exists (c * Bn + k). split; [assumption|]. rewrite Hi. f_equal.
  destruct Hpos as [(_ & c' & k' & Hc' & Hk' & Heq & ->)|[Heq _]];
    [|simpl in Heq; lia].
  simpl in Heq. symmetry in Heq.
  apply Nat.mul_split_l in Heq as [-> ->]; [reflexivity|assumption..].
Qed.

(** C10. On every reachable container that is not empty, sort() performs
    no invalid access. Whatever the fuel, the run never takes a fault branch
    (null or unallocated bucket, index outside the item array, dead bucket,
    overflowing index), and with enough fuel it returns. Moreover every
    iterator it dereferences is one of the N element positions, reached
    from begin() by fewer than N increments: none lies before begin() and
    none at or past end(). *)
Theorem sort_accesses_valid (s : SliceArray) :
  reachable s → iter_ne (begin s) (end_ s) = true →
  (∀ fuel, sort fuel s ≠ Fault)
  ∧ ∃ l,
      (∀ f, length l < f → to_list f s = Ok l)
      ∧ ∀ fuel, length (memory s) * Bn ≤ fuel →
          ∃ s' log,
            sort fuel s = Ok s'
            ∧ sort_log fuel s = Ok (s', log)
            ∧ Forall (λ it, ∃ n, n < length l
                                 ∧ advance n s (begin s) = Ok it) log.
Proof.
  intros Hreach Hne. destruct (reachable_wf s Hreach) as (base & m & Hwf).
  assert (0 < size m s) as Hpos.
  { destruct (begin_at_pos base m s Hwf) as [[Hlt _]|[_ Heq]]; [assumption|].
    rewrite Heq, iter_ne_refl in Hne. discriminate. }
  pose proof (size_le_slots base m s Hwf) as Hle.
  rewrite (slots_length base m s Hwf) in Hle.
  pose proof Hwf as (Hlen & _).
  assert (m * Bn ≤ length (memory s) * Bn)
    by (apply Nat.mul_le_mono_r; lia).
  pose proof (contents_length base m s Hwf) as Hcl.
  split.
  - intros fuel. eapply terminates_with_not_Fault.
    apply (sort_wf base m s fuel Hwf). auto.
  - exists (contents base m s). split.
    + intros f Hf. apply (to_list_wf base m); [assumption|lia].
    + intros fuel Hfuel.
      destruct (terminates_with_Ok _ _ _
                  (sort_log_wf base m s fuel Hwf (or_intror Hpos)))
        as ([s' log] & Hlog & _ & _ & _ & Hall); [lia|].
      exists s', log. split; [|split].
      * rewrite sort_log_erase, Hlog. reflexivity.
      * assumption.
      * eapply Forall_impl; [exact Hall|]. intros it Hit. rewrite Hcl.
        by apply (on_slot_advance base m).
Qed.

(** *** One thread alone *)

Lemma run_app sched1 sched2 (w : world (T := T)) :
  run (sched1 ++ sched2) w = bind (run sched1 w) (run sched2).
Proof.
  revert w. induction sched1 as [|t sched1 IH]; intros w; [reflexivity|].
  simpl. destruct (step t w) as [w1| |]; simpl; [apply IH|reflexivity..].
Qed.

Lemma solo_fast s i b x ws :
  fNextBucketIndex s ≠ BUCKET_SIZE → fLastBucket s ≠ None →
  run [0; 0; 0; 0] (mkWorld s [mkThread PcReadIndex i b x] ws)
  = bind (append 1 x s)
      (λ s', Ok (mkWorld s'
                   [mkThread PcDone (fNextBucketIndex s) (fLastBucket s) x]
                   (ws ++ match fLastBucket s with
                          | Some a => [(0, a, fNextBucketIndex s)]
                          | None => []
                          end))).
Proof.
  intros Hidx Hlast. rewrite append_unfold. cbv zeta.
  destruct (fLastBucket s) as [a|] eqn:Hl; [|done].
  destruct (Z.eqb_spec (fNextBucketIndex s) BUCKET_SIZE) as [|_]; [done|].
  simpl. unfold step at 1; simpl. rewrite Hl.
  destruct (Z.eqb_spec (fNextBucketIndex s) BUCKET_SIZE) as [|_]; [done|].
  simpl. unfold step at 1; simpl.
  destruct (int_incr (fNextBucketIndex s)) as [index1| |]; simpl;
    [|reflexivity..].
  unfold cas_fNextBucketIndex. rewrite Z.eqb_refl. simpl.
  unfold step, store_item, load; simpl.
  destruct (memory s !! a) as [b0|]; simpl; [|reflexivity].
  destruct (constructed b0 && (0 <=? fNextBucketIndex s)%Z
            && (fNextBucketIndex s <? BUCKET_SIZE)%Z
            && (Z.to_nat (fNextBucketIndex s) <? length (items b0)));
    reflexivity.
Qed.

Lemma solo_grow s i b x ws :
  fLock s = 0%Z →
  fNextBucketIndex s = BUCKET_SIZE ∨ fLastBucket s = None →
  run (replicate 8 0) (mkWorld s [mkThread PcReadIndex i b x] ws)
  = bind (allocateBucket 1 s)
      (λ s1, Ok (mkWorld s1
                   [mkThread PcReadIndex (fNextBucketIndex s) (fLastBucket s) x]
                   ws)).
Proof.
  intros Hlk Hgrow.
  assert ((fNextBucketIndex s =? BUCKET_SIZE)%Z || is_null (fLastBucket s)
          = true) as Hcond.
  { apply orb_true_iff. destruct Hgrow as [->| ->].
    - left. apply Z.eqb_refl.
    - by right. }
  unfold allocateBucket. rewrite lock_free by assumption. cbn [bind].
  simpl. rewrite Hcond.
  unfold step at 1; simpl. rewrite Hcond. simpl.
  unfold step at 1; simpl. rewrite Hlk. simpl.
  unfold step at 1; simpl. unfold cas_fLock. rewrite Hlk. simpl.
  unfold step at 1; simpl. rewrite Hcond. simpl.
  unfold step at 1; simpl.
  destruct (grow_link (set_fLock 1 s)) as [s1| |] eqn:Hs1; simpl;
    [|reflexivity..].
  reflexivity.
Qed.

Lemma solo_done s i b x ws sched :
  Forall (λ t, t = 0) sched →
  run sched (mkWorld s [mkThread PcDone i b x] ws)
  = Ok (mkWorld s [mkThread PcDone i b x] ws).
Proof.
  induction 1 as [|t sched -> _ IH]; [reflexivity|]. simpl. exact IH.
Qed.

Lemma append_fast_fuel s x fuel :
  fNextBucketIndex s ≠ BUCKET_SIZE → fLastBucket s ≠ None →
  append (S fuel) x s = append 1 x s.
Proof.
  intros Hidx Hlast. rewrite !append_unfold. cbv zeta.
  destruct (fLastBucket s) as [a|]; [|done].
  destruct (Z.eqb_spec (fNextBucketIndex s) BUCKET_SIZE) as [|_]; [done|].
  simpl. destruct (int_incr (fNextBucketIndex s)); simpl; [|reflexivity..].
  unfold cas_fNextBucketIndex. rewrite Z.eqb_refl. reflexivity.
Qed.

Lemma append_fast_no_timeout s x :
  append 1 x s ≠ Timeout ∨ fNextBucketIndex s = BUCKET_SIZE ∨ fLastBucket s = None.
Proof.
  destruct (decide (fNextBucketIndex s = BUCKET_SIZE)) as [|Hidx]; [auto|].
  destruct (fLastBucket s) as [a|] eqn:Hl; [|auto].
  left. rewrite append_unfold. cbv zeta. rewrite Hl.
  destruct (Z.eqb_spec (fNextBucketIndex s) BUCKET_SIZE) as [|_]; [done|].
  simpl. unfold int_incr.
  destruct (fNextBucketIndex s <? INT_MAX)%Z; simpl; [|done].
  unfold cas_fNextBucketIndex. rewrite Z.eqb_refl.
  unfold store_item, load; simpl.
  destruct (memory s !! a) as [b0|]; simpl; [|done].
  destruct (constructed b0 && _ && _ && _); done.
Qed.

Lemma allocateBucket_grown s fuel s1 :
  fLock s = 0%Z →
  fNextBucketIndex s = BUCKET_SIZE ∨ fLastBucket s = None →
  allocateBucket (S fuel) s = Ok s1 →
  fNextBucketIndex s1 = 0%Z ∧ fLastBucket s1 ≠ None.
Proof.
  intros Hlk Hgrow. unfold allocateBucket.
  rewrite lock_free by assumption. cbn [bind]. simpl.
  replace ((fNextBucketIndex s =? BUCKET_SIZE)%Z || is_null (fLastBucket s))
    with true.
  2:{ symmetry. apply orb_true_iff. destruct Hgrow as [->| ->].
      - left. apply Z.eqb_refl.
      - by right. }
  unfold grow_link, allocate; simpl.
  destruct (fAllocator s); [|destruct (fLastBucket s); discriminate].
  destruct (fLastBucket s) as [last|]; simpl.
  - unfold store_prev; simpl.
    destruct ((memory s ++ [new_Bucket]) !! length (memory s)); simpl;
      [|discriminate].
    unfold store_next; simpl.
    destruct (_ !! last); simpl; [|discriminate].
    intros [= <-]. simpl. done.
  - intros [= <-]. simpl. done.
Qed.

Lemma allocateBucket_fuel s fuel :
  fLock s = 0%Z → allocateBucket (S fuel) s = allocateBucket 1 s.
Proof.
  intros Hlk. unfold allocateBucket. by rewrite !lock_free by assumption.
Qed.

Lemma allocateBucket_no_timeout s fuel :
  fLock s = 0%Z → allocateBucket (S fuel) s ≠ Timeout.
Proof.
  intros Hlk. unfold allocateBucket.
  rewrite lock_free by assumption. cbn [bind]. simpl.
  destruct (_ || _); simpl; [|done].
  unfold grow_link, allocate; simpl.
  destruct (fAllocator s); [|destruct (fLastBucket s); discriminate].
  destruct (fLastBucket s) as [last|]; simpl; [|done].
  unfold store_prev; simpl.
  destruct ((memory s ++ [new_Bucket]) !! length (memory s)); simpl; [|done].
  unfold store_next; simpl.
  destruct (_ !! last); simpl; done.
Qed.

(** A thread that runs alone does what the sequential [append] does. *)
Lemma solo_thread_append s x :
  fLock s = 0%Z →
  match append 3 x s with
  | Ok s' =>
      ∃ w, run (replicate 12 0) (spawn s [x]) = Ok w
           ∧ shared w = s' ∧ all_done w = true
  | Fault => run (replicate 12 0) (spawn s [x]) = Fault
  | Timeout => False
  end.
Proof.
  intros Hlk. unfold spawn; simpl map.
  destruct (decide (fNextBucketIndex s = BUCKET_SIZE ∨ fLastBucket s = None))
    as [Hgrow|Hno].
  - change (replicate 12 0) with (replicate 8 0 ++ [0; 0; 0; 0]).
    rewrite run_app, (solo_grow s _ _ x [] Hlk Hgrow).
    rewrite append_unfold. cbv zeta.
    replace ((fNextBucketIndex s =? BUCKET_SIZE)%Z || is_null (fLastBucket s))
      with true.
    2:{ symmetry. apply orb_true_iff. destruct Hgrow as [->| ->].
        - left. apply Z.eqb_refl.
        - by right. }
    rewrite (allocateBucket_fuel s 1 Hlk).
    destruct (allocateBucket 1 s) as [s1| |] eqn:Hs1; cbn [bind];
      [|reflexivity|].
    + destruct (allocateBucket_grown s 0 s1 Hlk Hgrow Hs1) as [Hi1 Hl1].
      rewrite solo_fast by (assumption || lia).
      rewrite (append_fast_fuel s1 x 1) by (assumption || lia).
      destruct (append_fast_no_timeout s1 x) as [Hnt|[?|?]]; [|lia|done].
      destruct (append 1 x s1) as [s'| |]; cbn [bind]; [|reflexivity|done].
      eexists. split; [reflexivity|]. split; reflexivity.
    + by apply allocateBucket_no_timeout in Hs1.
  - assert (fNextBucketIndex s ≠ BUCKET_SIZE) as Hidx
      by (intros Heq; apply Hno; by left).
    assert (fLastBucket s ≠ None) as Hlast
      by (intros Heq; apply Hno; by right).
    change (replicate 12 0) with ([0; 0; 0; 0] ++ replicate 8 0).
    rewrite run_app, solo_fast by assumption.
    rewrite (append_fast_fuel s x 2) by assumption.
    destruct (append_fast_no_timeout s x) as [Hnt|[?|?]]; [|done..].
    destruct (append 1 x s) as [s'| |]; cbn [bind]; [|reflexivity|done].
    rewrite solo_done by (by apply Forall_replicate).
    eexists. split; [reflexivity|]. split; reflexivity.
Qed.

Lemma appended_reachable vs fuel :
  ∀ s0 s, reachable s0 → append_all fuel vs s0 = Ok s → reachable s.
Proof.
  induction vs as [|v vs IH]; intros s0 s Hreach Hrun; simpl in Hrun.
  - by injection Hrun as <-.
  - apply bind_Ok in Hrun as (s1 & Hs1 & Hrun).
    apply (IH s1); [|assumption].
    by apply (reachable_step _ _ s0 (OpAppend v) fuel).
Qed.

Lemma init_reachable : reachable init.
Proof. by apply (reachable_step _ _ empty (OpSetAllocator true) 0); [constructor|]. Qed.


(** * Further properties *)

(** *** append on any reachable container *)

Lemma reachable_traversal s :
  reachable s →
  ∃ base m, wf base m s
            ∧ ∀ f, length (contents base m s) < f →
                   to_list f s = Ok (contents base m s).
Proof.
  intros Hreach. destruct (reachable_wf s Hreach) as (base & m & Hwf).
  exists base, m. split; [assumption|]. intros f Hf.
  apply (to_list_wf base m); [assumption|].
  by rewrite <- (contents_length base m s Hwf).
Qed.

(** X1. On every reachable container with an allocator (after any
    sequence of appends, growths and resets), append returns and the
    traversal of the new state is the old traversal followed by the
    appended value: earlier elements keep their place. *)
Theorem append_extends_traversal (s : SliceArray) (x : T) (fuel : nat) :
  reachable s → fAllocator s = true → 2 ≤ fuel →
  ∃ l s',
    (∀ f, length l < f → to_list f s = Ok l)
    ∧ append fuel x s = Ok s'
    ∧ ∀ f, S (length l) < f → to_list f s' = Ok (l ++ [x]).
Proof.
  intros Hreach Hal Hfuel.
  destruct (reachable_traversal s Hreach) as (base & m & Hwf & Hl).
  destruct (append_wf base m s fuel x Hwf Hal Hfuel)
    as (m' & s' & Hs' & Hwf' & _ & _ & Hc).
  exists (contents base m s), s'. split; [assumption|]. split; [assumption|].
  intros f Hf. rewrite <- Hc. apply (to_list_wf base m'); [assumption|].
  rewrite <- (contents_length base m' s' Hwf'), Hc, length_app. simpl. lia.
Qed.

(** X2. Without an allocator append faults exactly when it has to allocate
    a bucket (no bucket yet, or the last one full), in particular on a
    freshly constructed container; while the last bucket has room it
    returns. *)
Theorem append_without_allocator (s : SliceArray) (x : T) (fuel : nat) :
  reachable s → fAllocator s = false → 2 ≤ fuel →
  (fNextBucketIndex s = BUCKET_SIZE ∨ fLastBucket s = None →
   append fuel x s = Fault)
  ∧ (fNextBucketIndex s ≠ BUCKET_SIZE → fLastBucket s ≠ None →
     ∃ s', append fuel x s = Ok s').
Proof.
  intros Hreach Hal Hfuel.
  destruct (reachable_wf s Hreach) as (base & m & Hwf).
  pose proof Hwf as (_ & _ & _ & Hl & _ & _ & Hlk).
  destruct fuel as [|[|fuel]]; try lia. split.
  - intros Hgrow. rewrite append_unfold. cbv zeta.
    replace ((fNextBucketIndex s =? BUCKET_SIZE)%Z || is_null (fLastBucket s))
      with true.
    + by rewrite allocateBucket_no_allocator.
    + symmetry. apply orb_true_iff. destruct Hgrow as [->| ->].
      * left. apply Z.eqb_refl.
      * by right.
  - intros Hidx Hlast. destruct m as [|m']; [by rewrite Hl in Hlast|].
    destruct (append_fast base m' s (S fuel) x Hwf Hidx) as (s' & Hs' & _).
    eauto.
Qed.

(** *** reset *)


Lemma advance_position base m s n it :
  wf base m s → n < size m s → advance n s (begin s) = Ok it →
  ∃ c k, c < m ∧ k < Bn ∧ n = c * Bn + k ∧ it = it_at base c k.
Proof.
  intros Hwf Hn Hadv.
  destruct (advance_at base m s n Hwf 0 (begin s)) as (i & Hi & Hpos);
    [by apply begin_at_pos|lia|].
  assert (i = it) as -> by congruence.
  destruct Hpos as [(_ & c & k & Hc & Hk & Heq & ->)|[Heq _]];
    [|simpl in Heq; lia].
  exists c, k. simpl in Heq. auto.
Qed.


(** *** Iterators *)

Lemma traversal_is_contents base m s l :
  wf base m s → (∀ f, length l < f → to_list f s = Ok l) →
  l = contents base m s.
Proof.
  intros Hwf Hl.
  specialize (Hl (S (length l + size m s))).
  rewrite (to_list_wf base m s _ Hwf) in Hl by lia.
  injection Hl as ->; [reflexivity|lia].
Qed.

(** X4. On every element position of a reachable container, next() followed
    by prev() comes back to the same iterator, also across a bucket
    boundary and when next() is end(); and on every position but the first,
    prev() followed by next() does. *)
Theorem iterator_next_prev (s : SliceArray) (n : nat) (it : iterator)
    (l : list T) :
  reachable s →
  (∀ f, length l < f → to_list f s = Ok l) →
  n < length l → advance n s (begin s) = Ok it →
  (∃ it', iter_next BUCKET_SIZE s it = Ok it'
          ∧ iter_prev BUCKET_SIZE s it' = Ok it)
  ∧ (0 < n →
     ∃ it', iter_prev BUCKET_SIZE s it = Ok it'
            ∧ iter_next BUCKET_SIZE s it' = Ok it).
Proof.
  intros Hreach Hl Hn Hadv.
  destruct (reachable_wf s Hreach) as (base & m & Hwf).
  rewrite (traversal_is_contents base m s l Hwf Hl) in Hn.
  rewrite (contents_length base m s Hwf) in Hn.
  destruct (advance_position base m s n it Hwf Hn Hadv)
    as (c & k & Hc & Hk & Heq & ->).
  pose proof Bn_pos as HBp. pose proof Bn_Z as HBz.
  unfold iter_next, iter_prev. split.
  - rewrite (iter_incr_at base m) by assumption.
    eexists. split; [reflexivity|].
    destruct (decide (S k = Bn ∧ S c < m)) as [[Hk1 Hc1]|Hno].
    + rewrite (iter_decr_at base m) by (assumption || lia).
      replace (S c - 1) with c by lia. do 2 f_equal. lia.
    + unfold iter_decr, it_at, int_decr; cbn [fIndex fBucket].
      replace (INT_MIN <? Z.of_nat (S k))%Z with true
        by (symmetry; apply Z.ltb_lt; unfold INT_MIN; lia).
      cbn [bind].
      replace (Z.of_nat (S k) - 1 <? 0)%Z with false
        by (symmetry; apply Z.ltb_ge; lia).
      do 2 f_equal. lia.
  - intros Hpos. rewrite (iter_decr_at base m) by (assumption || lia).
    eexists. split; [reflexivity|]. destruct k as [|k'].
    + destruct c as [|c']; [simpl in Heq; lia|].
      rewrite (iter_incr_at base m) by (assumption || lia).
      rewrite decide_True by lia. do 2 f_equal. lia.
    + rewrite (iter_incr_at base m) by (assumption || lia).
      rewrite decide_False by lia. reflexivity.
Qed.


(** X6. Dereferencing end() faults exactly when the container has no bucket
    or its last bucket is full; otherwise end() stands on a constructed but
    unused slot of the last bucket and reading it returns. *)
Theorem dereference_end (s : SliceArray) :
  reachable s →
  (fLastBucket s = None ∨ fNextBucketIndex s = BUCKET_SIZE →
   iter_deref s (end_ s) = Fault)
  ∧ (fLastBucket s ≠ None → fNextBucketIndex s ≠ BUCKET_SIZE →
     ∃ x, iter_deref s (end_ s) = Ok x).
Proof.
  intros Hreach. destruct (reachable_wf s Hreach) as (base & m & Hwf).
  pose proof Hwf as (_ & _ & _ & Hl & Hidx & _).
  pose proof Bn_Z as HBz. split.
  - intros [Hnone|Hfull].
    + unfold iter_deref, end_, load_item, load; simpl. by rewrite Hnone.
    + unfold iter_deref, end_, load_item, load; simpl. rewrite Hfull.
      destruct (fLastBucket s) as [a|]; [|reflexivity].
      destruct (memory s !! a) as [b|]; simpl; [|reflexivity].
      rewrite Z.ltb_irrefl. by rewrite andb_false_r.
  - intros Hlast Hroom. destruct m as [|m']; [by rewrite Hl in Hlast|].
    destruct (iter_deref_at base (S m') s m' (Z.to_nat (fNextBucketIndex s)))
      as (x & Hx & _); [assumption|lia|lia|].
    exists x. rewrite (wf_end base m' s Hwf). unfold it_at in Hx.
    by rewrite Z2Nat.id in Hx by lia.
Qed.

(** *** sort, further *)

Lemma sort_inner_noop base m s c k n fuel :
  wf base m s → c < m → k < Bn → n = c * Bn + k →
  (n = 0 ∨ ∃ a b, slots base s !! (n - 1) = Some a
                  ∧ slots base s !! n = Some b ∧ gt a b = false) →
  sort_inner (S fuel) s (it_at base c k) = Ok s.
Proof.
  intros Hwf Hc Hk Hn Hsorted. rewrite sort_inner_unfold.
  rewrite (iter_ne_begin base m) by assumption. rewrite <- Hn.
  destruct Hsorted as [->|(a & b & Ha & Hb & Hgt)]; [reflexivity|].
  destruct n as [|p]; [reflexivity|]. simpl negb. cbv iota.
  destruct (iter_prev_at base m c k) as (c' & k' & Hc' & Hk' & Hp & Hprev);
    [assumption|assumption|lia|].
  unfold iter_prev. rewrite (Hprev s Hwf). cbn [bind].
  destruct (iter_deref_at base m s c' k') as (a' & Ha' & Hla); [assumption..|].
  destruct (iter_deref_at base m s c k) as (b' & Hb' & Hlb); [assumption..|].
  rewrite Ha'; cbn [bind]. rewrite Hb'; cbn [bind].
  replace (c' * Bn + k') with (S p - 1) in Hla by lia. rewrite <- Hn in Hlb.
  assert (a' = a) as -> by congruence. assert (b' = b) as -> by congruence.
  by rewrite Hgt.
Qed.

Lemma sort_outer_noop base m s cnt :
  wf base m s →
  ∀ inner fuel i n,
    at_pos base m s n i → n + cnt = size m s → 0 < inner → cnt < fuel →
    (∀ j a b, n ≤ j → 0 < j → j < size m s →
              slots base s !! (j - 1) = Some a → slots base s !! j = Some b →
              gt a b = false) →
    sort_outer inner fuel s i (end_ s) = Ok s.
Proof.
  intros Hwf. induction cnt as [|cnt IH];
    intros inner fuel i n Hpos Hn Hinner Hfuel Hsorted;
    (destruct fuel as [|fuel]; [lia|]); rewrite sort_outer_unfold.
  - destruct Hpos as [[Hlt _]|[_ ->]]; [lia|]. by rewrite iter_ne_refl.
  - destruct Hpos as [(Hlt & c & k & Hc & Hk & Hnck & ->)|[Heq _]]; [|lia].
    rewrite (iter_ne_end base m) by (assumption || lia).
    destruct inner as [|inner]; [lia|].
    rewrite (sort_inner_noop base m s c k n inner Hwf Hc Hk Hnck).
    2:{ destruct n as [|p]; [by left|]. right.
        pose proof (size_le_slots base m s Hwf) as Hle.
        destruct (lookup_lt_is_Some_2 (slots base s) (S p - 1)) as [a Ha];
          [lia|].
        destruct (lookup_lt_is_Some_2 (slots base s) (S p)) as [b Hb]; [lia|].
        exists a, b. split; [assumption|]. split; [assumption|].
        apply (Hsorted (S p) a b); (assumption || lia). }
    cbn [bind].
    destruct (iter_incr_pos base m s c k) as (i' & Hi' & Hpos');
      [assumption..|lia|].
    rewrite Hi'; cbn [bind]. rewrite <- Hnck in Hpos'.
    apply (IH (S inner) fuel i' (S n)); try (assumption || lia).
    intros j a b Hj. apply Hsorted. lia.
Qed.

Lemma Sorted_adjacent {A : Type} (R : A → A → Prop) (l : list A) :
  Sorted R l →
  ∀ j a b, l !! j = Some a → l !! S j = Some b → R a b.
Proof.
  induction 1 as [|x l Hl IH Hhd]; intros j a b Ha Hb; [discriminate|].
  destruct j as [|j]; simpl in *.
  - injection Ha as <-. destruct Hhd as [|y l' Hxy]; [discriminate|].
    simpl in Hb. by injection Hb as <-.
  - eauto.
Qed.

Lemma sort_noop_wf base m s fuel :
  wf base m s → 0 < size m s →
  Sorted (λ a b, gt a b = false) (contents base m s) →
  size m s ≤ fuel →
  sort fuel s = Ok s.
Proof.
  intros Hwf Hpos Hsorted Hfuel. unfold sort.
  destruct m as [|m']; [simpl in Hpos; lia|].
  pose proof Hwf as (_ & _ & Hf & _). rewrite Hf; simpl.
  rewrite (wf_begin base m' s Hwf). unfold iter_next. pose proof Bn_pos.
  destruct (iter_incr_pos base (S m') s 0 0) as (i & Hi & Hposi);
    [assumption|lia|lia|exact Hpos|].
  rewrite Hi; cbn [bind]. change (S (0 * Bn + 0)) with 1 in Hposi.
  apply (sort_outer_noop base (S m') s (size (S m') s - 1) Hwf fuel fuel i 1);
    try (assumption || lia).
  intros j a b Hj Hj0 Hjs Ha Hb.
  apply (Sorted_adjacent _ _ Hsorted (j - 1) a b).
  - unfold contents. by rewrite lookup_take_lt by lia.
  - unfold contents. replace (S (j - 1)) with j by lia.
    by rewrite lookup_take_lt by lia.
Qed.

Lemma nonempty_size base m s :
  wf base m s → iter_ne (begin s) (end_ s) = true → 0 < size m s.
Proof.
  intros Hwf Hne.
  destruct (begin_at_pos base m s Hwf) as [[Hlt _]|[_ Heq]]; [assumption|].
  rewrite Heq, iter_ne_refl in Hne. discriminate.
Qed.

(** X7. On a non-empty reachable container whose elements are already in
    order (no element greater than its successor), sort writes nothing: it
    returns the very state it was given. *)
Theorem sort_sorted_is_noop (s : SliceArray) (l : list T) (fuel : nat) :
  reachable s → iter_ne (begin s) (end_ s) = true →
  (∀ f, length l < f → to_list f s = Ok l) →
  Sorted (λ a b, gt a b = false) l →
  length l ≤ fuel →
  sort fuel s = Ok s.
Proof.
  intros Hreach Hne Hl Hsorted Hfuel.
  destruct (reachable_wf s Hreach) as (base & m & Hwf).
  rewrite (traversal_is_contents base m s l Hwf Hl) in Hsorted, Hfuel.
  rewrite (contents_length base m s Hwf) in Hfuel.
  apply (sort_noop_wf base m); try assumption.
  by apply (nonempty_size base).
Qed.

(** X8. sort is idempotent for a strict total order: sorting the result of
    a sort returns that result unchanged. *)
Theorem sort_idempotent (s s' : SliceArray) (l : list T) (fuel fuel' : nat) :
  strict_total_order →
  reachable s → iter_ne (begin s) (end_ s) = true →
  (∀ f, length l < f → to_list f s = Ok l) →
  sort fuel s = Ok s' → length l ≤ fuel' →
  sort fuel' s' = Ok s'.
Proof.
  intros Hord Hreach Hne Hl Hsort Hfuel.
  destruct (reachable_wf s Hreach) as (base & m & Hwf).
  rewrite (traversal_is_contents base m s l Hwf Hl) in Hfuel.
  rewrite (contents_length base m s Hwf) in Hfuel.
  pose proof (nonempty_size base m s Hwf Hne) as Hpos.
  pose proof (sort_wf base m s fuel Hwf (or_intror Hpos)) as H.
  rewrite Hsort in H. simpl in H. destruct H as (Hwf' & Hfr & Hc).
  pose proof (frame_size m _ _ Hfr) as Hsz.
  apply (sort_noop_wf base m); try (assumption || lia).
  rewrite Hc. apply StronglySorted_Sorted, sort_list_ascending.
  - by apply strict_total_order_asym.
  - by apply strict_total_order_le_trans.
Qed.

(** X9. Whatever [operator>] is, even if it is no order at all, sort on a
    non-empty reachable container returns once the fuel covers the elements
    and only permutes them: the traversal of the result is a permutation of
    the traversal before, begin() and end() are the same iterators, and no
    bucket is allocated or released. *)
Theorem sort_permutes_any_comparison (s : SliceArray) (l : list T)
    (fuel : nat) :
  reachable s → iter_ne (begin s) (end_ s) = true →
  (∀ f, length l < f → to_list f s = Ok l) →
  length l ≤ fuel →
  ∃ s' l',
    sort fuel s = Ok s'
    ∧ (∀ f, length l < f → to_list f s' = Ok l')
    ∧ l' ≡ₚ l
    ∧ begin s' = begin s ∧ end_ s' = end_ s
    ∧ length (memory s') = length (memory s).
Proof.
  intros Hreach Hne Hl Hfuel.
  destruct (reachable_wf s Hreach) as (base & m & Hwf).
  pose proof (traversal_is_contents base m s l Hwf Hl) as ->.
  pose proof (contents_length base m s Hwf) as Hlen.
  pose proof (nonempty_size base m s Hwf Hne) as Hpos.
  destruct (terminates_with_Ok _ _ _
              (sort_wf base m s fuel Hwf (or_intror Hpos)))
    as (s' & Hs' & Hwf' & Hfr & Hc); [lia|].
  exists s', (sort_list (contents base m s)).
  split; [assumption|]. split.
  { intros f Hf. rewrite <- Hc. apply (to_list_wf base m); [assumption|].
    rewrite (frame_size _ _ _ Hfr). lia. }
  split; [apply sort_list_perm|].
  split; [by apply frame_begin|]. split; [by apply frame_end|].
  destruct Hwf as (-> & _). by destruct Hwf' as (-> & _).
Qed.

(** *** Threads that do not overlap *)

Lemma int_incr_no_timeout x : int_incr x ≠ Timeout.
Proof. unfold int_incr. by destruct (x <? INT_MAX)%Z. Qed.

Lemma store_item_no_timeout (s : SliceArray (T := T)) p i x :
  store_item s p i x ≠ Timeout.
Proof.
  unfold store_item, load. destruct p as [a|]; [|done].
  destruct (memory s !! a) as [b|]; simpl; [|done].
  by destruct (constructed b && _ && _ && _).
Qed.

Lemma grow_link_no_timeout s : grow_link s ≠ Timeout.
Proof.
  unfold grow_link, allocate.
  destruct (fAllocator s); [|by destruct (fLastBucket s)].
  destruct (fLastBucket s) as [last|]; simpl; [|done].
  unfold store_prev; simpl.
  destruct ((memory s ++ [new_Bucket]) !! length (memory s)); simpl; [|done].
  unfold store_next; simpl.
  by destruct (_ !! last).
Qed.

Lemma step_focus t ths (w1 w : world (T := T)) :
  t < length ths → focus t ths w1 w →
  match step 0 w1 with
  | Ok w1' => ∃ w', step t w = Ok w' ∧ focus t ths w1' w'
  | Fault => step t w = Fault
  | Timeout => False
  end.
Proof.
  intros Ht (Hsh & th & Hth1 & Hth).
  assert (threads w !! t = Some th) as Hlook
    by (rewrite Hth; by apply list_lookup_insert_eq).
  unfold step. rewrite Hlook, Hth1, Hsh. simpl. unfold goto.
  destruct (t_pc th); simpl;
    repeat match goal with
      | |- context [bind ?r _] => destruct r eqn:?; simpl
      | |- context [let '(_, _) := ?p in _] => destruct p; simpl
      | |- context [match t_bucket th with _ => _ end] =>
          destruct (t_bucket th); simpl
      | |- context [if ?c then _ else _] => destruct c; simpl
      end;
    try reflexivity; try discriminate;
    rewrite ?Hth1, ?Hth, ?list_insert_insert_eq; simpl;
    try (eexists; split; [reflexivity|]; split; [reflexivity|];
         eexists; split; reflexivity);
    try (exfalso; eapply grow_link_no_timeout; eassumption);
    try (exfalso; eapply int_incr_no_timeout; eassumption);
    try (exfalso; eapply store_item_no_timeout; eassumption).
  exists w. split; [reflexivity|]. split; [assumption|]. eauto.
Qed.

Lemma run_focus t ths k :
  t < length ths →
  ∀ (w1 w : world (T := T)),
    focus t ths w1 w →
    match run (replicate k 0) w1 with
    | Ok w1' => ∃ w', run (replicate k t) w = Ok w' ∧ focus t ths w1' w'
    | Fault => run (replicate k t) w = Fault
    | Timeout => False
    end.
Proof.
  intros Ht. induction k as [|k IH]; intros w1 w Hfocus; simpl; [eauto|].
  pose proof (step_focus t ths w1 w Ht Hfocus) as Hstep.
  destruct (step 0 w1) as [w1'| |]; simpl; [|by rewrite Hstep|done].
  destruct Hstep as (w' & -> & Hfocus'). simpl. by apply IH.
Qed.

Lemma reachable_append s x fuel s' :
  reachable s → append fuel x s = Ok s' → reachable s'.
Proof. intros Hreach Hrun. by apply (reachable_step _ _ s (OpAppend x) fuel). Qed.

Lemma sequential_run vs :
  ∀ done s s' (w : world (T := T)),
    reachable s → shared w = s →
    threads w = done ++ map (mkThread PcReadIndex 0 None) vs →
    all_done (mkWorld s done []) = true →
    append_all 3 vs s = Ok s' →
    ∃ w', run (concat (map (replicate 12) (seq (length done) (length vs)))) w
          = Ok w'
          ∧ shared w' = s' ∧ all_done w' = true.
Proof.
  induction vs as [|v vs IH]; intros done s s' w Hreach Hsh Hths Hdone Hrun.
  - simpl in *. injection Hrun as <-. exists w. split; [reflexivity|].
    split; [assumption|]. unfold all_done in *. simpl in *.
    by rewrite Hths, app_nil_r.
  - change (append_all 3 (v :: vs) s)
      with (bind (append 3 v s) (append_all 3 vs)) in Hrun.
    apply bind_Ok in Hrun as (s1 & Hs1 & Hrun).
    destruct (reachable_wf s Hreach) as (base & m & Hwf).
    pose proof Hwf as (_ & _ & _ & _ & _ & _ & Hlk).
    pose proof (solo_thread_append s v Hlk) as Hsolo. rewrite Hs1 in Hsolo.
    destruct Hsolo as (w1 & Hw1 & Hsh1 & Hdone1).
    set (t := length done). set (ths := threads w).
    assert (t < length ths) as Ht.
    { unfold ths, t. rewrite Hths, length_app. simpl. lia. }
    assert (focus t ths (spawn s [v]) w) as Hfocus.
    { split; [assumption|]. eexists. split; [reflexivity|].
      symmetry. apply list_insert_id. unfold ths, t. rewrite Hths.
      by rewrite lookup_app_r, Nat.sub_diag by lia. }
    pose proof (run_focus t ths 12 Ht _ _ Hfocus) as Hsim.
    rewrite Hw1 in Hsim. destruct Hsim as (w2 & Hw2 & Hsh2 & th & Hth1 & Hth2).
    destruct (IH (done ++ [th]) s1 s' w2) as (w' & Hw' & Hsh' & Hdone').
    { by apply (reachable_append s v 3). }
    { congruence. }
    { rewrite Hth2. unfold ths, t. rewrite Hths.
      rewrite insert_app_r_alt, Nat.sub_diag by lia. simpl.
      by rewrite <- app_assoc. }
    { unfold all_done in *. simpl in *. rewrite forallb_app, Hdone. simpl.
      rewrite Hth1 in Hdone1. simpl in Hdone1. exact Hdone1. }
    { assumption. }
    exists w'. split; [|auto]. cbn [length seq map concat].
    rewrite run_app. fold t. rewrite Hw2. cbn [bind].
    rewrite length_app in Hw'. simpl in Hw'.
    replace (length done + 1) with (S t) in Hw' by (unfold t; lia).
    exact Hw'.
Qed.

(** X10. Calls of append that do not overlap behave as sequential calls,
    whichever threads make them: when the threads of [spawn s vs] run one
    after the other, every call returns and the container then holds the
    old traversal followed by the values in the order of the calls. *)
Theorem sequential_threads_append_in_order (s : SliceArray) (vs : list T) :
  reachable s → fAllocator s = true →
  ∃ l w,
    (∀ f, length l < f → to_list f s = Ok l)
    ∧ run (sequential_schedule (length vs)) (spawn s vs) = Ok w
    ∧ all_done w = true
    ∧ ∀ f, length l + length vs < f → to_list f (shared w) = Ok (l ++ vs).
Proof.
  intros Hreach Hal.
  destruct (reachable_traversal s Hreach) as (base & m & Hwf & Hl).
  destruct (append_all_wf vs base m s 3 Hwf Hal)
    as (m' & s' & Hs' & Hwf' & _ & _ & Hc); [lia|].
  destruct (sequential_run vs [] s s' (spawn s vs))
    as (w & Hw & Hsh & Hdone); try (assumption || reflexivity).
  exists (contents base m s), w. split; [assumption|]. split; [exact Hw|].
  split; [assumption|]. intros f Hf. rewrite Hsh, <- Hc.
  apply (to_list_wf base m'); [assumption|].
  rewrite <- (contents_length base m' s' Hwf'), Hc, length_app. lia.
Qed.


(** *** The lock of allocateBucket *)

Lemma filter_insert_count {A : Type} (f : A → bool) (l : list A) :
  ∀ t x y,
    l !! t = Some x →
    length (List.filter f (<[t := y]> l)) + (if f x then 1 else 0)
    = length (List.filter f l) + (if f y then 1 else 0).
Proof.
  induction l as [|a l IH]; intros t x y Hx; [discriminate|].
  destruct t as [|t]; simpl in *.
  - injection Hx as ->. destruct (f x), (f y); simpl; lia.
  - specialize (IH t x y Hx). destruct (f a); simpl; lia.
Qed.

Lemma grow_link_lock s s1 : grow_link s = Ok s1 → fLock s1 = fLock s.
Proof.
  unfold grow_link, allocate.
  destruct (fAllocator s); [|destruct (fLastBucket s); discriminate].
  destruct (fLastBucket s) as [last|]; simpl.
  - unfold store_prev; simpl.
    destruct ((memory s ++ [new_Bucket]) !! length (memory s)); simpl;
      [|discriminate].
    unfold store_next; simpl.
    destruct (_ !! last); simpl; [|discriminate].
    by intros [= <-].
  - by intros [= <-].
Qed.

Lemma store_item_lock (s : SliceArray (T := T)) p i x s1 :
  store_item s p i x = Ok s1 → fLock s1 = fLock s.
Proof.
  unfold store_item, load. destruct p as [a|]; [|discriminate].
  destruct (memory s !! a) as [b|]; simpl; [|discriminate].
  destruct (constructed b && _ && _ && _); [|discriminate].
  by intros [= <-].
Qed.

Lemma step_lock t (w w' : world (T := T)) :
  step t w = Ok w' →
  fLock (shared w) = Z.of_nat (holders w) → holders w ≤ 1 →
  fLock (shared w') = Z.of_nat (holders w') ∧ holders w' ≤ 1.
Proof.
  unfold step, holders. intros Hstep Hlock Hle.
  destruct (threads w !! t) as [th|] eqn:Hth; [|discriminate].
  assert (∀ p s ws,
            length (List.filter in_growth
                      (threads (mkWorld s
                         (<[t := mkThread p (t_index th) (t_bucket th)
                                   (t_copyFrom th)]> (threads w)) ws)))
            + (if in_growth th then 1 else 0)
            = length (List.filter in_growth (threads w))
              + (if in_growth (mkThread p (t_index th) (t_bucket th)
                                 (t_copyFrom th)) then 1 else 0)) as Hcount.
  { intros p s ws. simpl. by apply filter_insert_count. }
  unfold in_growth in Hcount at 2 4. simpl in Hcount.
  destruct (t_pc th) eqn:Hpc; simpl in Hstep.
  - injection Hstep as <-. simpl.
    pose proof (filter_insert_count in_growth (threads w) t th
                  (mkThread PcReadBucket (fNextBucketIndex (shared w))
                     (t_bucket th) (t_copyFrom th)) Hth) as Hc.
    unfold in_growth in Hc at 2 4. rewrite Hpc in Hc. simpl in Hc. lia.
  - destruct (_ || _) in Hstep; injection Hstep as <-; unfold goto; simpl.
    + pose proof (filter_insert_count in_growth (threads w) t th
                    (mkThread PcSpin (t_index th) (fLastBucket (shared w))
                       (t_copyFrom th)) Hth) as Hc.
      unfold in_growth in Hc at 2 4. rewrite Hpc in Hc. simpl in Hc. lia.
    + pose proof (filter_insert_count in_growth (threads w) t th
                    (mkThread PcCas (t_index th) (fLastBucket (shared w))
                       (t_copyFrom th)) Hth) as Hc.
      unfold in_growth in Hc at 2 4. rewrite Hpc in Hc. simpl in Hc. lia.
  - destruct (fLock (shared w) =? 0)%Z in Hstep; injection Hstep as <-;
      unfold goto; simpl.
    + specialize (Hcount PcLockCas (shared w) (writes w)). simpl in Hcount. lia.
    + specialize (Hcount PcSpin (shared w) (writes w)). simpl in Hcount. lia.
  - unfold cas_fLock in Hstep.
    destruct (Z.eqb_spec (fLock (shared w)) 0) as [Hfree|Hheld];
      injection Hstep as <-; unfold goto; simpl.
    + specialize (Hcount PcGrowCheck (shared w) (writes w)).
      simpl in Hcount. lia.
    + specialize (Hcount PcSpin (shared w) (writes w)). simpl in Hcount. lia.
  - destruct (_ || _) in Hstep; injection Hstep as <-; unfold goto; simpl.
    + specialize (Hcount PcGrowLink (shared w) (writes w)).
      simpl in Hcount. lia.
    + specialize (Hcount PcUnlock (shared w) (writes w)). simpl in Hcount. lia.
  - apply bind_Ok in Hstep as (s1 & Hs1 & Hstep). injection Hstep as <-.
    unfold goto; simpl. rewrite (grow_link_lock _ _ Hs1).
    specialize (Hcount PcGrowIndex (shared w) (writes w)).
    simpl in Hcount. lia.
  - injection Hstep as <-. unfold goto; simpl.
    specialize (Hcount PcUnlock (shared w) (writes w)). simpl in Hcount. lia.
  - injection Hstep as <-. unfold goto; simpl.
    specialize (Hcount PcReadIndex (shared w) (writes w)).
    simpl in Hcount. lia.
  - apply bind_Ok in Hstep as (i1 & _ & Hstep).
    unfold cas_fNextBucketIndex in Hstep.
    destruct (_ =? _)%Z in Hstep; injection Hstep as <-; unfold goto; simpl.
    + specialize (Hcount PcStore (shared w) (writes w)). simpl in Hcount. lia.
    + specialize (Hcount PcReadIndex (shared w) (writes w)).
      simpl in Hcount. lia.
  - apply bind_Ok in Hstep as (s1 & Hs1 & Hstep).
    destruct (t_bucket th); [|discriminate]. injection Hstep as <-. simpl.
    rewrite (store_item_lock _ _ _ _ _ Hs1).
    specialize (Hcount PcDone (shared w) (writes w)). simpl in Hcount. lia.
  - injection Hstep as <-. auto.
Qed.

(** X11. The spin lock of allocateBucket gives mutual exclusion under every
    interleaving: whatever the schedule, at most one thread is between its
    successful compare-and-swap on fLock and its write of fLock = 0, and
    fLock is 1 exactly when there is such a thread. *)
Theorem growth_lock_mutual_exclusion (s : SliceArray) (vs : list T)
    (schedule : list nat) (w : world) :
  fLock s = 0%Z →
  run schedule (spawn s vs) = Ok w →
  holders w ≤ 1 ∧ fLock (shared w) = Z.of_nat (holders w).
Proof.
  intros Hlk.
  assert (holders (spawn s vs) = 0) as H0.
  { unfold holders, spawn; simpl. by induction vs. }
  assert (fLock (shared (spawn s vs)) = Z.of_nat (holders (spawn s vs))
          ∧ holders (spawn s vs) ≤ 1) as Hinv
    by (rewrite H0; simpl; split; [assumption|lia]).
  clear H0 Hlk. revert Hinv. generalize (spawn s vs) as w0.
  induction schedule as [|t schedule IH]; intros w0 [Hlock Hle] Hrun.
  - simpl in Hrun. injection Hrun as <-. auto.
  - simpl in Hrun. apply bind_Ok in Hrun as (w1 & Hw1 & Hrun).
    apply (IH w1); [|assumption]. by apply (step_lock t w0).
Qed.

(** *** Concurrent appends into a bucket with room *)

Lemma omap_insert_same {A B : Type} (f : A → option B) (l : list A) :
  ∀ t x y, l !! t = Some x → f y = f x → omap f (<[t := y]> l) = omap f l.
Proof.
  induction l as [|a l IH]; intros t x y Hx Hf; [discriminate|].
  destruct t as [|t]; simpl in *.
  - injection Hx as ->. by rewrite Hf.
  - destruct (f a); [f_equal|]; apply (IH t x y Hx Hf).
Qed.

Lemma omap_insert_new {A B : Type} (f : A → option B) (l : list A) :
  ∀ t x y b,
    l !! t = Some x → f x = None → f y = Some b →
    omap f (<[t := y]> l) ≡ₚ b :: omap f l.
Proof.
  induction l as [|a l IH]; intros t x y b Hx Hfx Hfy; [discriminate|].
  destruct t as [|t]; simpl in *.
  - injection Hx as ->. by rewrite Hfx, Hfy.
  - destruct (f a) as [c|].
    + etransitivity; [|apply perm_swap].
      apply perm_skip. apply (IH t x y b Hx Hfx Hfy).
    + apply (IH t x y b Hx Hfx Hfy).
Qed.

Lemma omap_length_le {A B : Type} (f : A → option B) (l : list A) :
  length (omap f l) ≤ length l.
Proof.
  induction l as [|a l IH]; simpl; [lia|]. unfold omap in IH.
  destruct (f a); simpl; lia.
Qed.

Lemma omap_length_lt {A B : Type} (f : A → option B) (l : list A) :
  ∀ t x, l !! t = Some x → f x = None → length (omap f l) < length l.
Proof.
  induction l as [|a l IH]; intros t x Hx Hfx; [discriminate|].
  destruct t as [|t]; simpl in *.
  - injection Hx as ->. rewrite Hfx.
    pose proof (omap_length_le f l) as Hle. unfold omap in Hle. lia.
  - specialize (IH t x Hx Hfx). unfold omap in IH.
    destruct (f a); simpl; lia.
Qed.

Lemma omap_NoDup_distinct {A B : Type} (f : A → option B) (l : list A) :
  NoDup (omap f l) →
  ∀ t t' x x' b b',
    t ≠ t' → l !! t = Some x → l !! t' = Some x' →
    f x = Some b → f x' = Some b' → b ≠ b'.
Proof.
  induction l as [|a l IH]; intros Hnd t t' x x' b b' Hne Hx Hx' Hb Hb';
    [discriminate|].
  destruct t as [|t], t' as [|t']; simpl in *; try lia.
  - injection Hx as ->. rewrite Hb in Hnd. apply NoDup_cons in Hnd as [Hnot _].
    intros ->. apply Hnot. apply list_elem_of_omap. exists x'.
    split; [by eapply list_elem_of_lookup_2|assumption].
  - injection Hx' as ->. rewrite Hb' in Hnd.
    apply NoDup_cons in Hnd as [Hnot _].
    intros <-. apply Hnot. apply list_elem_of_omap. exists x.
    split; [by eapply list_elem_of_lookup_2|assumption].
  - apply (IH ltac:(destruct (f a); [by apply NoDup_cons in Hnd as [_ ?]|done])
             t t' x x'); (assumption || lia).
Qed.

Lemma map_insert_same {A B : Type} (f : A → B) (l : list A) t x y :
  l !! t = Some x → f y = f x → map f (<[t := y]> l) = map f l.
Proof.
  revert t. induction l as [|a l IH]; intros t Hx Hf; [discriminate|].
  destruct t as [|t]; simpl in *.
  - injection Hx as ->. by rewrite Hf.
  - by rewrite IH.
Qed.

Lemma spawn_values (s : SliceArray (T := T)) (l : list T) :
  map t_copyFrom (threads (spawn s l)) = l.
Proof.
  unfold spawn; simpl. induction l as [|v l IH]; simpl; [reflexivity|].
  by rewrite IH.
Qed.

Lemma spawn_reservations (s : SliceArray (T := T)) (l : list T) :
  omap reservation (threads (spawn s l)) = [].
Proof.
  unfold spawn; simpl. induction l as [|v l IH]; [reflexivity|exact IH].
Qed.

Lemma spawn_thread_ok base m' (s s' : SliceArray (T := T)) (l : list T) :
  Forall (thread_ok BUCKET_SIZE base m' s') (threads (spawn s l)).
Proof.
  unfold spawn; simpl. induction l as [|v l IH]; simpl; constructor;
    [exact I|exact IH].
Qed.

Section Room.

Variables (base m' : nat) (s0 : SliceArray (T := T)) (vs : list T).

Hypothesis wf_s0 : wf base (S m') s0.
Hypothesis room :
  (fNextBucketIndex s0 + Z.of_nat (length vs) ≤ BUCKET_SIZE)%Z.

Local Abbreviation inv := (room_inv BUCKET_SIZE base m' s0 vs).
Local Abbreviation thread_ok := (thread_ok BUCKET_SIZE base m').
Local Abbreviation i0 := (Z.to_nat (fNextBucketIndex s0)).

Lemma room_inv_spawn : inv (spawn s0 vs).
Proof.
  unfold room_inv, spawn; simpl. split; [assumption|]. split; [|split; [|split]].
  - apply (spawn_values s0).
  - exists 0. split; [lia|]. simpl.
    by rewrite <- (spawn_reservations s0 vs).
  - apply (spawn_thread_ok base m' s0).
  - reflexivity.
Qed.

Lemma room_inv_step t (w : world (T := T)) th :
  inv w → threads w !! t = Some th →
  ∃ w', step t w = Ok w' ∧ inv w'.
Proof.
  intros (Hwf & Hvals & (k & Hidx & Hperm) & Hok & Hold) Hth.
  pose proof Bn_Z as HBz. pose proof Bn_pos as HBp.
  pose proof wf_s0 as (_ & _ & _ & _ & Hidx0 & _).
  pose proof Hwf as (_ & _ & _ & Hl & Hidxw & _).
  assert (length (threads w) = length vs) as Hlen
    by (rewrite <- Hvals; by rewrite length_map).
  assert (length (omap reservation (threads w)) = k) as Hk
    by (rewrite Hperm; apply length_seq).
  assert (thread_ok (shared w) th) as Hth_ok
    by (rewrite Forall_lookup in Hok; by apply (Hok t)).
  assert (NoDup (omap reservation (threads w))) as Hnd
    by (rewrite Hperm; apply NoDup_seq).
  assert (k ≤ length vs) as Hkle
    by (rewrite <- Hk, <- Hlen; apply omap_length_le).
  unfold step. rewrite Hth. simpl.
  unfold thread_ok in Hth_ok.
  destruct (t_pc th) eqn:Hpc; try contradiction.
  - (* index = fNextBucketIndex *)
    assert (k < length vs) as Hklt.
    { rewrite <- Hk, <- Hlen. apply (omap_length_lt _ _ t th); [assumption|].
      unfold reservation. by rewrite Hpc. }
    eexists. split; [reflexivity|]. unfold room_inv; simpl.
    split; [assumption|]. split; [|split; [|split]].
    + rewrite <- Hvals. by apply (map_insert_same _ _ t th).
    + exists k. split; [assumption|].
      rewrite (omap_insert_same _ _ t th); [assumption..|].
      unfold reservation; simpl. by rewrite Hpc.
    + apply Forall_insert; [assumption|].
      unfold thread_ok; simpl. lia.
    + assumption.
  - (* bucket = fLastBucket, and the test *)
    replace (t_index th =? BUCKET_SIZE)%Z with false
      by (symmetry; apply Z.eqb_neq; lia).
    rewrite Hl. simpl. eexists. split; [reflexivity|].
    unfold room_inv, goto; simpl.
    split; [assumption|]. split; [|split; [|split]].
    + rewrite <- Hvals. by apply (map_insert_same _ _ t th).
    + exists k. split; [assumption|].
      rewrite (omap_insert_same _ _ t th); [assumption..|].
      unfold reservation; simpl. by rewrite Hpc.
    + apply Forall_insert; [assumption|].
      unfold thread_ok; simpl. auto.
    + assumption.
  - (* the compare-and-swap on fNextBucketIndex *)
    destruct Hth_ok as [Hrange Hbucket].
    unfold int_incr.
    replace (t_index th <? INT_MAX)%Z with true
      by (symmetry; apply Z.ltb_lt; lia).
    cbn [bind]. unfold cas_fNextBucketIndex.
    destruct (Z.eqb_spec (fNextBucketIndex (shared w)) (t_index th))
      as [Heq|Hne].
    + eexists. split; [reflexivity|]. unfold room_inv, goto; simpl.
      split; [apply wf_set_index; [assumption|lia]|].
      split; [|split; [|split]].
      * rewrite <- Hvals. by apply (map_insert_same _ _ t th).
      * exists (S k). split; [lia|].
        rewrite (omap_insert_new _ _ t th _ (i0 + k)); [|assumption|..].
        -- rewrite Hperm, seq_S. apply Permutation_cons_append.
        -- unfold reservation. by rewrite Hpc.
        -- unfold reservation; simpl. f_equal. lia.
      * apply Forall_insert; [exact Hok|].
        unfold thread_ok; simpl. split; [lia|assumption].
      * exact Hold.
    + eexists. split; [reflexivity|]. unfold room_inv, goto; simpl.
      split; [assumption|]. split; [|split; [|split]].
      * rewrite <- Hvals. by apply (map_insert_same _ _ t th).
      * exists k. split; [assumption|].
        rewrite (omap_insert_same _ _ t th); [assumption..|].
        unfold reservation; simpl. by rewrite Hpc.
      * apply Forall_insert; [assumption|].
        unfold thread_ok; simpl. exact I.
      * assumption.
  - (* bucket->items[index] = copyFrom *)
    destruct Hth_ok as [Hpos Hbucket].
    assert (reservation th = Some (Z.to_nat (t_index th))) as Hres
      by (unfold reservation; by rewrite Hpc).
    assert (i0 ≤ Z.to_nat (t_index th) < i0 + k) as Hin.
    { apply elem_of_seq. rewrite <- Hperm. apply list_elem_of_omap.
      exists th. split; [by eapply list_elem_of_lookup_2|assumption]. }
    destruct (store_item_at base (S m') (shared w) m'
                (Z.to_nat (t_index th)) (t_copyFrom th))
      as (s1 & Hs1 & Hwf1 & Hfr1 & Hsl1); [assumption|lia|lia|].
    rewrite Z2Nat.id in Hs1 by lia. rewrite Hbucket, Hs1. cbn [bind].
    eexists. split; [reflexivity|]. unfold room_inv; simpl.
    pose proof (slots_length base (S m') (shared w) Hwf) as Hsl.
    split; [assumption|]. split; [|split; [|split]].
    + rewrite <- Hvals. by apply (map_insert_same _ _ t th).
    + exists k. split; [destruct Hfr1 as (_ & _ & -> & _); assumption|].
      rewrite (omap_insert_same _ _ t th); [assumption..|].
      unfold reservation; simpl. by rewrite Hpc.
    + apply Forall_lookup. intros t' th' Hth'.
      destruct (decide (t' = t)) as [->|Hne].
      * rewrite list_lookup_insert_eq in Hth' by (by eapply lookup_lt_Some).
        injection Hth' as <-. unfold thread_ok; simpl.
        split; [assumption|]. split; [reflexivity|].
        rewrite Hsl1. apply list_lookup_insert_eq. rewrite Hsl. simpl. lia.
      * rewrite list_lookup_insert_ne in Hth' by done.
        assert (thread_ok (shared w) th') as Hok'
          by (rewrite Forall_lookup in Hok; by apply (Hok t')).
        unfold thread_ok in *.
        destruct (t_pc th') eqn:Hpc'; try assumption.
        destruct Hok' as (Hpos' & Hbucket' & Hslot').
        split; [assumption|]. split; [assumption|].
        rewrite Hsl1, list_lookup_insert_ne; [assumption|].
        assert (Z.to_nat (t_index th) ≠ Z.to_nat (t_index th')) as Hdiff.
        { apply (omap_NoDup_distinct reservation (threads w) Hnd t t' th th');
            try assumption; [congruence|].
          unfold reservation. by rewrite Hpc'. }
        lia.
    + rewrite Hsl1, take_insert_ge; [assumption|]. unfold size. lia.
  - (* the call has returned *)
    exists w. split; [reflexivity|].
    unfold room_inv. eauto 10.
Qed.

Lemma room_inv_run schedule :
  ∀ (w : world (T := T)),
    inv w → Forall (λ t, t < length vs) schedule →
    ∃ w', run schedule w = Ok w' ∧ inv w'.
Proof.
  induction schedule as [|t schedule IH]; intros w Hinv Hsched; simpl.
  - eauto.
  - apply Forall_cons in Hsched as [Ht Hsched].
    pose proof Hinv as (_ & Hvals & _).
    destruct (lookup_lt_is_Some_2 (threads w) t) as [th Hth].
    { rewrite <- Hvals, length_map in Ht. exact Ht. }
    destruct (room_inv_step t w th Hinv Hth) as (w1 & -> & Hinv1).
    cbn [bind]. by apply IH.
Qed.

Lemma all_done_reservations (ths : list (thread (T := T))) :
  forallb (λ th, match t_pc th with PcDone => true | _ => false end) ths
  = true →
  omap reservation ths = map (λ th, Z.to_nat (t_index th)) ths.
Proof.
  induction ths as [|th ths IH]; simpl; [reflexivity|].
  intros [Hd Hrest]%andb_true_iff. unfold reservation at 1.
  destruct (t_pc th); try discriminate. f_equal. apply (IH Hrest).
Qed.

Lemma room_inv_done (w : world (T := T)) :
  inv w → all_done w = true →
  ∃ l', contents base (S m') (shared w) = contents base (S m') s0 ++ l'
        ∧ l' ≡ₚ vs.
Proof.
  intros (Hwf & Hvals & (k & Hidx & Hperm) & Hok & Hold) Hdone.
  pose proof Bn_Z as HBz.
  pose proof wf_s0 as (_ & _ & _ & _ & Hidx0 & _).
  unfold all_done in Hdone.
  rewrite (all_done_reservations _ Hdone) in Hperm.
  assert (k = length vs) as ->.
  { apply Permutation_length in Hperm.
    rewrite length_map, length_seq in Hperm. rewrite <- Hvals, length_map.
    lia. }
  pose proof (slots_length base (S m') (shared w) Hwf) as Hsl.
  set (g := λ i, default default_T (slots base (shared w) !! (m' * Bn + i))).
  exists (map g (seq i0 (length vs))). split.
  - unfold contents at 1.
    replace (size (S m') (shared w)) with (size (S m') s0 + length vs)
      by (unfold size; rewrite Hidx; lia).
    rewrite <- take_take_drop. rewrite Hold. f_equal.
    apply (list_eq_same_length _ _ (length vs)).
    + by rewrite length_map, length_seq.
    + rewrite length_take, length_drop, Hsl. unfold size. simpl. lia.
    + intros j x y Hj Hx Hy.
      rewrite lookup_take_lt, lookup_drop in Hx by lia.
      change (map g (seq i0 (length vs))) with (g <$> seq i0 (length vs)) in Hy.
      rewrite list_lookup_fmap, lookup_seq_lt in Hy by lia. simpl in Hy.
      injection Hy as <-. unfold g, size in *.
      replace (m' * Bn + (i0 + j)) with (m' * Bn + i0 + j) by lia.
      by rewrite Hx.
  - rewrite <- (Permutation_map g Hperm). rewrite map_map, <- Hvals.
    clear -Hok Hdone. induction Hok as [|th ths Hth Hok IH]; [reflexivity|].
    simpl in *. apply andb_true_iff in Hdone as [Hd Hrest].
    rewrite <- (IH Hrest). unfold thread_ok in Hth.
    destruct (t_pc th); try discriminate.
    destruct Hth as (_ & _ & Hslot). unfold g. by rewrite Hslot.
Qed.

End Room.

(** X12. While the last bucket has room for all pending values, concurrent
    appends are safe under every interleaving: no step faults, no thread
    enters allocateBucket, and once every call has returned the container
    holds the old traversal followed by the appended values, each exactly
    once, in some order. *)
Theorem concurrent_appends_with_room (s : SliceArray) (vs : list T)
    (schedule : list nat) :
  reachable s → fLastBucket s ≠ None →
  (fNextBucketIndex s + Z.of_nat (length vs) ≤ BUCKET_SIZE)%Z →
  Forall (λ t, t < length vs) schedule →
  ∃ l w,
    (∀ f, length l < f → to_list f s = Ok l)
    ∧ run schedule (spawn s vs) = Ok w
    ∧ holders w = 0
    ∧ (all_done w = true →
       ∃ l', l' ≡ₚ vs
             ∧ ∀ f, length l + length vs < f →
                    to_list f (shared w) = Ok (l ++ l')).
Proof.
  intros Hreach Hlast Hroom Hsched.
  destruct (reachable_traversal s Hreach) as (base & m & Hwf & Hl).
  pose proof Hwf as (_ & _ & _ & Hla & _).
  destruct m as [|m']; [by rewrite Hla in Hlast|].
  destruct (room_inv_run base m' s vs Hwf Hroom schedule (spawn s vs))
    as (w & Hw & Hinv); [by apply room_inv_spawn|assumption|].
  exists (contents base (S m') s), w. split; [assumption|].
  split; [assumption|]. split.
  - destruct Hinv as (_ & _ & _ & Hok & _). unfold holders.
    induction Hok as [|th ths Hth Hok IH]; [reflexivity|]. simpl.
    unfold thread_ok in Hth. unfold in_growth at 1.
    destruct (t_pc th); try contradiction; exact IH.
  - intros Hdone.
    destruct (room_inv_done base m' s vs Hwf Hroom w Hinv Hdone)
      as (l' & Hc & Hperm).
    exists l'. split; [assumption|]. intros f Hf. rewrite <- Hc.
    pose proof Hinv as (Hwfw & _).
    apply (to_list_wf base (S m')); [assumption|].
    rewrite <- (contents_length base (S m') (shared w) Hwfw), Hc, length_app.
    rewrite (Permutation_length Hperm). lia.
Qed.

Lemma iter_ne_sym (a b : iterator) : iter_ne a b = iter_ne b a.
Proof.
  unfold iter_ne. rewrite (Z.eqb_sym (fIndex a)). f_equal. f_equal.
  destruct (fBucket a), (fBucket b); simpl; try reflexivity.
  apply Nat.eqb_sym.
Qed.

Lemma at_pos_ne base m s n n' i i' :
  wf base m s → at_pos base m s n i → at_pos base m s n' i' →
  iter_ne i i' = if decide (n = n') then false else true.
Proof.
  intros Hwf Hi Hi'. pose proof Bn_pos.
  pose proof (at_pos_eq_end base m s n i Hwf Hi) as He.
  pose proof (at_pos_eq_end base m s n' i' Hwf Hi') as He'.
  rewrite iter_eq_ne in He, He'.
  destruct Hi as [(Hlt & c & k & Hc & Hk & Hn & ->)|[Hn ->]],
           Hi' as [(Hlt' & c' & k' & Hc' & Hk' & Hn' & ->)|[Hn' ->]].
  - unfold iter_ne, it_at; simpl.
    destruct (Nat.eqb_spec (base + c) (base + c')) as [Hcc|Hcc];
      destruct (Z.eqb_spec (Z.of_nat k) (Z.of_nat k')) as [Hkk|Hkk]; simpl;
      destruct (decide (n = n')) as [Hnn|Hnn]; try reflexivity; exfalso.
    + apply Hnn. assert (c = c') by lia. assert (k = k') by lia. by subst.
    + subst n n'. assert (c = c') by lia. subst c'. lia.
    + subst n n'.
      destruct (decide (c < c')); [nia|]. destruct (decide (c' < c)); [nia|].
      lia.
    + subst n n'.
      destruct (decide (c < c')); [nia|]. destruct (decide (c' < c)); [nia|].
      lia.
  - rewrite decide_False in He by lia. rewrite decide_False by lia.
    by apply negb_false_iff in He.
  - rewrite decide_False in He' by lia. rewrite decide_False by lia.
    rewrite iter_ne_sym. by apply negb_false_iff in He'.
  - rewrite decide_True by lia. apply iter_ne_refl.
Qed.

(** X13. Iterator comparison identifies positions: two iterators reached from
    begin() by n and n' increments (end() included) compare equal with
    [operator==] exactly when n = n', and [operator!=] gives the opposite
    answer on every pair of iterators. *)
Theorem iterator_equality_is_position (s : SliceArray) (l : list T)
    (n n' : nat) :
  reachable s →
  (∀ f, length l < f → to_list f s = Ok l) →
  n ≤ length l → n' ≤ length l →
  ∃ it it',
    advance n s (begin s) = Ok it
    ∧ advance n' s (begin s) = Ok it'
    ∧ (iter_eq it it' = true ↔ n = n')
    ∧ ∀ a b : iterator, iter_ne a b = negb (iter_eq a b).
Proof.
  intros Hreach Hl Hn Hn'.
  destruct (reachable_wf s Hreach) as (base & m & Hwf).
  rewrite (traversal_is_contents base m s l Hwf Hl) in Hn, Hn'.
  rewrite (contents_length base m s Hwf) in Hn, Hn'.
  destruct (advance_at base m s n Hwf 0 (begin s)) as (it & Hit & Hpos);
    [by apply begin_at_pos|lia|].
  destruct (advance_at base m s n' Hwf 0 (begin s)) as (it' & Hit' & Hpos');
    [by apply begin_at_pos|lia|].
  simpl in Hpos, Hpos'.
  exists it, it'. split; [assumption|]. split; [assumption|]. split.
  - rewrite iter_eq_ne, (at_pos_ne base m s n n' it it' Hwf Hpos Hpos').
    destruct (decide (n = n')); simpl; split; (done || congruence).
  - intros a b. rewrite iter_eq_ne. by destruct (iter_ne a b).
Qed.

Lemma traversal_at_fuel (s : SliceArray) (l : list T) :
  reachable s → to_list (S (length (memory s) * Bn)) s = Ok l →
  ∀ f, length l < f → to_list f s = Ok l.
Proof.
  intros Hreach Hl f Hf.
  destruct (reachable_wf s Hreach) as (base & m & Hwf).
  pose proof (size_le_slots base m s Hwf) as Hsz.
  rewrite (slots_length base m s Hwf) in Hsz.
  pose proof Hwf as (Hmem & _).
  assert (m * Bn ≤ length (memory s) * Bn) as Hle
    by (rewrite Hmem; apply Nat.mul_le_mono_r; lia).
  rewrite (to_list_wf base m s _ Hwf) in Hl by lia.
  injection Hl as <-.
  apply (to_list_wf base m); [assumption|].
  by rewrite <- (contents_length base m s Hwf).
Qed.
End Properties.

(** * Examples *)

Lemma gt_nat_strict_total_order : strict_total_order gt_nat.
Proof.
  unfold strict_total_order, gt_nat. split; [|split].
  - intros a. apply Nat.ltb_irrefl.
  - intros a b c Hab Hbc. apply Nat.ltb_lt in Hab, Hbc. apply Nat.ltb_lt. lia.
  - intros a b. destruct (Nat.lt_trichotomy a b) as [H|[H|H]].
    + right; right. by apply Nat.ltb_lt.
    + by left.
    + right; left. by apply Nat.ltb_lt.
Qed.

Lemma append_then_iterate_witness :
  ∃ s, append_all 0 4 2 [0; 1; 2; 3; 4; 5; 6; 7; 8] init = Ok s
       ∧ ∀ fuel', 9 < fuel' → to_list 4 fuel' s = Ok [0; 1; 2; 3; 4; 5; 6; 7; 8].
Proof.
  apply (append_then_iterate 0 4 ltac:(lia) ltac:(unfold INT_MAX; lia)
           [0; 1; 2; 3; 4; 5; 6; 7; 8] 2).
  lia.
Defined.

Lemma filled_reachable (B : Z) (vs : list nat) (s : SliceArray) :
  append_all 0 B 2 vs init = Ok s → reachable 0 B s.
Proof. apply appended_reachable, init_reachable. Qed.

Lemma sort_sorted_permutation_witness :
  (([4; 2; 5; 1; 3] : list nat) = [] →
   ∀ fuel', sort gt_nat 2 fuel' five
            = Ok five)
  ∧ ∀ fuel', 5 ≤ fuel' →
      ∃ s' l, sort gt_nat 2 fuel' five = Ok s'
              ∧ (∀ f, 5 < f → to_list 2 f s' = Ok l)
              ∧ l ≡ₚ [4; 2; 5; 1; 3] ∧ ascending gt_nat l.
Proof.
  apply (sort_sorted_permutation 0 gt_nat 2 ltac:(lia)
           ltac:(unfold INT_MAX; lia) [4; 2; 5; 1; 3] 2
           five).
  - apply gt_nat_strict_total_order.
  - lia.
  - vm_compute. reflexivity.
Defined.

Lemma sort_stable_witness :
  ∃ s' l,
    sort gt_key 4 5 keyed = Ok s'
    ∧ (∀ f, 5 < f → to_list 4 f s' = Ok l)
    ∧ List.filter (λ x, Nat.eqb (fst x) 3) l = [(3, 1); (3, 2)].
Proof.
  apply (sort_stable (0, 0) gt_key 4 ltac:(lia) ltac:(unfold INT_MAX; lia)
           (λ x, Nat.eqb (fst x) 3)
           [(5, 0); (3, 1); (3, 2); (1, 3); (4, 4)] 2 keyed).
  - intros [a1 a2] [b1 b2] Ha Hb. simpl in Ha, Hb.
    apply Nat.eqb_eq in Ha, Hb. subst. reflexivity.
  - lia.
  - vm_compute. reflexivity.
  - simpl. lia.
Defined.

Lemma allocateBucket_in_isolation_witness :
  (∃ s', allocateBucket 0 1 1 (filled 1 [7]) = Ok s'
         ∧ length (memory s') = 2
         ∧ fLastBucket s' = Some 1
         ∧ fNextBucketIndex s' = 0%Z
         ∧ fLock s' = 0%Z
         ∧ fFirstBucket s' = Some 0
         ∧ (∃ b, memory (filled 1 [7]) !! 0 = Some b
                 ∧ memory s' !! 0
                   = Some (mkBucket (Some 1) (prev b) (items b) (constructed b)))
         ∧ memory s' !! 1 = Some (mkBucket None (Some 0) [0] true)
         ∧ ∀ a, a ≠ 0 → a < 1 → memory s' !! a = memory (filled 1 [7]) !! a)
  ∧ allocateBucket 0 2 1 (filled 2 [7]) = Ok (filled 2 [7]).
Proof.
  split.
  - apply (allocateBucket_in_isolation 0 1 (filled 1 [7]) 1 eq_refl
             ltac:(lia)).
    + left. reflexivity.
    + reflexivity.
    + intros last Hlast. vm_compute in Hlast. injection Hlast as <-.
      vm_compute. lia.
  - apply (allocateBucket_in_isolation 0 2 (filled 2 [7]) 1 eq_refl
             ltac:(lia)).
    + vm_compute. discriminate.
    + vm_compute. discriminate.
Defined.

Lemma reachable_invariant_witness :
  (0 ≤ fNextBucketIndex five ≤ 2)%Z
  ∧ ∃ chain,
      is_chain (memory five)
        (fFirstBucket five) chain
      ∧ fLastBucket five = last chain
      ∧ (fFirstBucket five = None ↔ chain = [])
      ∧ (fLastBucket five = None ↔ chain = []).
Proof.
  apply (reachable_invariant 0 2 ltac:(lia) ltac:(unfold INT_MAX; lia)).
  apply (filled_reachable 2 [4; 2; 5; 1; 3]). vm_compute. reflexivity.
Defined.

Lemma reset_then_append_witness :
  ∃ s', reset 4 five = Ok s'
        ∧ fFirstBucket s' = None ∧ fLastBucket s' = None
        ∧ fNextBucketIndex s' = 0%Z
        ∧ iter_eq (begin s') (end_ s') = true
        ∧ only_destroyed (memory five) (memory s')
        ∧ fAllocator s' = fAllocator five
        ∧ (fAllocator five = true →
           ∀ x f, 2 ≤ f →
             ∃ s'', append 0 2 f x s' = Ok s''
                    ∧ ∀ f', 1 < f' → to_list 2 f' s'' = Ok [x]).
Proof.
  apply (reset_then_append 0 2 ltac:(lia) ltac:(unfold INT_MAX; lia)).
  - apply (filled_reachable 2 [4; 2; 5; 1; 3]). vm_compute. reflexivity.
  - vm_compute. lia.
Defined.

Lemma iterator_increment_witness :
  advance 2 4 four (begin four)
  = Ok (end_ four)
  ∧ end_ four
    = mkIterator (fLastBucket four) 2
  ∧ ∀ k, k < 4 →
         ∃ it, advance 2 k four
                 (begin four) = Ok it
               ∧ iter_eq it (end_ four) = false.
Proof.
  apply (proj2 (iterator_increment 0 2 ltac:(lia) ltac:(unfold INT_MAX; lia))
           [1; 2; 3; 4] 2 four).
  - lia.
  - vm_compute. reflexivity.
  - vm_compute. reflexivity.
Defined.

Lemma sort_accesses_valid_witness :
  (∀ fuel, sort gt_nat 2 fuel five ≠ Fault)
  ∧ ∃ l,
      (∀ f, length l < f → to_list 2 f five = Ok l)
      ∧ ∀ fuel, length (memory five) * Bn 2 ≤ fuel →
          ∃ s' log,
            sort gt_nat 2 fuel five = Ok s'
            ∧ sort_log gt_nat 2 fuel five = Ok (s', log)
            ∧ Forall (λ it, ∃ n, n < length l
                                 ∧ advance 2 n five (begin five) = Ok it) log.
Proof.
  apply (sort_accesses_valid 0 gt_nat 2 ltac:(lia) ltac:(unfold INT_MAX; lia)).
  - apply (filled_reachable 2 [4; 2; 5; 1; 3]). vm_compute. reflexivity.
  - vm_compute. reflexivity.
Defined.

Lemma compareElements_not_three_way :
  ¬ three_way_comparison gt_nat (compareElements gt_nat).
Proof.
  intros H. destruct (H 3 3) as (_ & _ & H0).
  specialize (H0 eq_refl eq_refl). vm_compute in H0. discriminate.
Qed.

(** C9, as stated, fails: 3 and 3 are equal (neither is greater), yet
    compareElements returns -1 on them, the very result it returns when the
    first element is smaller; no result sets the equal case apart. *)
Lemma compareElements_equal_not_distinguished :
  gt_nat 3 3 = false
  ∧ compareElements gt_nat 3 3 = (-1)%Z
  ∧ compareElements gt_nat 3 3 = compareElements gt_nat 2 3.
Proof. repeat split. Qed.

(** C3, on the code. Three threads each call append once, with
    BUCKET_SIZE = 1, under [lost_update_schedule]. All three calls return,
    but the container then holds 10, a default-constructed element and 30:
    the value 20 is gone. The log of item stores shows that slot 0 of
    bucket 0 was written by thread 1 and again by thread 0, while slot 0 of
    bucket 1, reserved by nobody, was never written. *)
Theorem concurrent_append_loses_value :
  ∃ w, run 0 1 lost_update_schedule (spawn init [10; 20; 30]) = Ok w
       ∧ all_done w = true
       ∧ to_list 1 4 (shared w) = Ok [10; 0; 30]
       ∧ writes w = [(1, 0, 0%Z); (0, 0, 0%Z); (2, 2, 0%Z)].
Proof.
  eexists. split; [vm_compute; reflexivity|].
  repeat split.
Qed.

(** ** Examples for the further properties *)

Lemma five_reachable : reachable 0 2 five.
Proof. apply (filled_reachable 2 [4; 2; 5; 1; 3]). vm_compute. reflexivity. Qed.

Lemma four_reachable : reachable 0 2 four.
Proof. apply (filled_reachable 2 [1; 2; 3; 4]). vm_compute. reflexivity. Qed.

Lemma five_traversal :
  ∀ f, length [4; 2; 5; 1; 3] < f → to_list 2 f five = Ok [4; 2; 5; 1; 3].
Proof.
  apply (traversal_at_fuel 0 2 ltac:(lia) ltac:(unfold INT_MAX; lia));
    [apply five_reachable|vm_compute; reflexivity].
Qed.

Lemma four_traversal :
  ∀ f, length [1; 2; 3; 4] < f → to_list 2 f four = Ok [1; 2; 3; 4].
Proof.
  apply (traversal_at_fuel 0 2 ltac:(lia) ltac:(unfold INT_MAX; lia));
    [apply four_reachable|vm_compute; reflexivity].
Qed.

Lemma append_extends_traversal_witness :
  ∃ l s',
    (∀ f, length l < f → to_list 2 f five = Ok l)
    ∧ append 0 2 2 9 five = Ok s'
    ∧ ∀ f, S (length l) < f → to_list 2 f s' = Ok (l ++ [9]).
Proof.
  apply (append_extends_traversal 0 2 ltac:(lia) ltac:(unfold INT_MAX; lia)
           five 9 2).
  - apply five_reachable.
  - vm_compute. reflexivity.
  - lia.
Defined.

Lemma append_without_allocator_witness :
  ((fNextBucketIndex (setAllocator false five) = 2%Z
    ∨ fLastBucket (setAllocator false five) = None →
    append 0 2 2 9 (setAllocator false five) = Fault)
   ∧ (fNextBucketIndex (setAllocator false five) ≠ 2%Z →
      fLastBucket (setAllocator false five) ≠ None →
      ∃ s', append 0 2 2 9 (setAllocator false five) = Ok s'))
  ∧ ((fNextBucketIndex (setAllocator false four) = 2%Z
      ∨ fLastBucket (setAllocator false four) = None →
      append 0 2 2 9 (setAllocator false four) = Fault)
     ∧ (fNextBucketIndex (setAllocator false four) ≠ 2%Z →
        fLastBucket (setAllocator false four) ≠ None →
        ∃ s', append 0 2 2 9 (setAllocator false four) = Ok s')).
Proof.
  split.
  - apply (append_without_allocator 0 2 ltac:(lia) ltac:(unfold INT_MAX; lia)
             (setAllocator false five) 9 2).
    + apply (reachable_step 0 2 five (OpSetAllocator false) 0);
        [apply five_reachable|reflexivity].
    + reflexivity.
    + lia.
  - apply (append_without_allocator 0 2 ltac:(lia) ltac:(unfold INT_MAX; lia)
             (setAllocator false four) 9 2).
    + apply (reachable_step 0 2 four (OpSetAllocator false) 0);
        [apply four_reachable|reflexivity].
    + reflexivity.
    + lia.
Defined.


Lemma iterator_next_prev_witness :
  (∃ it', iter_next 2 five (mkIterator (Some 1) 0) = Ok it'
          ∧ iter_prev 2 five it' = Ok (mkIterator (Some 1) 0))
  ∧ (0 < 2 →
     ∃ it', iter_prev 2 five (mkIterator (Some 1) 0) = Ok it'
            ∧ iter_next 2 five it' = Ok (mkIterator (Some 1) 0)).
Proof.
  apply (iterator_next_prev 0 2 ltac:(lia) ltac:(unfold INT_MAX; lia)
           five 2 (mkIterator (Some 1) 0) [4; 2; 5; 1; 3]).
  - apply five_reachable.
  - apply five_traversal.
  - simpl. lia.
  - vm_compute. reflexivity.
Defined.


Lemma dereference_end_witness :
  ((fLastBucket four = None ∨ fNextBucketIndex four = 2%Z →
    iter_deref 2 four (end_ four) = Fault)
   ∧ (fLastBucket four ≠ None → fNextBucketIndex four ≠ 2%Z →
      ∃ x, iter_deref 2 four (end_ four) = Ok x))
  ∧ ((fLastBucket five = None ∨ fNextBucketIndex five = 2%Z →
      iter_deref 2 five (end_ five) = Fault)
     ∧ (fLastBucket five ≠ None → fNextBucketIndex five ≠ 2%Z →
        ∃ x, iter_deref 2 five (end_ five) = Ok x)).
Proof.
  split.
  - apply (dereference_end 0 2 ltac:(lia) ltac:(unfold INT_MAX; lia) four).
    apply four_reachable.
  - apply (dereference_end 0 2 ltac:(lia) ltac:(unfold INT_MAX; lia) five).
    apply five_reachable.
Defined.

Lemma sort_sorted_is_noop_witness : sort gt_nat 2 4 four = Ok four.
Proof.
  apply (sort_sorted_is_noop 0 gt_nat 2 ltac:(lia) ltac:(unfold INT_MAX; lia)
           four [1; 2; 3; 4] 4).
  - apply four_reachable.
  - vm_compute. reflexivity.
  - apply four_traversal.
  - repeat constructor.
  - simpl. lia.
Defined.

Lemma sort_idempotent_witness : sort gt_nat 2 5 sorted_five = Ok sorted_five.
Proof.
  apply (sort_idempotent 0 gt_nat 2 ltac:(lia) ltac:(unfold INT_MAX; lia)
           five sorted_five [4; 2; 5; 1; 3] 5 5).
  - apply gt_nat_strict_total_order.
  - apply five_reachable.
  - vm_compute. reflexivity.
  - apply five_traversal.
  - vm_compute. reflexivity.
  - simpl. lia.
Defined.

Lemma sort_permutes_any_comparison_witness :
  ∃ s' l',
    sort gt_parity 2 5 five = Ok s'
    ∧ (∀ f, length [4; 2; 5; 1; 3] < f → to_list 2 f s' = Ok l')
    ∧ l' ≡ₚ [4; 2; 5; 1; 3]
    ∧ begin s' = begin five
    ∧ end_ s' = end_ five
    ∧ length (memory s') = length (memory five).
Proof.
  apply (sort_permutes_any_comparison 0 gt_parity 2 ltac:(lia)
           ltac:(unfold INT_MAX; lia) five [4; 2; 5; 1; 3] 5).
  - apply five_reachable.
  - vm_compute. reflexivity.
  - apply five_traversal.
  - simpl. lia.
Defined.

Lemma sequential_threads_append_in_order_witness :
  ∃ l w,
    (∀ f, length l < f → to_list 2 f five = Ok l)
    ∧ run 0 2 (sequential_schedule (length [7; 8; 9])) (spawn five [7; 8; 9])
      = Ok w
    ∧ all_done w = true
    ∧ ∀ f, length l + length [7; 8; 9] < f →
           to_list 2 f (shared w) = Ok (l ++ [7; 8; 9]).
Proof.
  apply (sequential_threads_append_in_order 0 2 ltac:(lia)
           ltac:(unfold INT_MAX; lia) five [7; 8; 9]).
  - apply five_reachable.
  - vm_compute. reflexivity.
Defined.

Lemma growth_lock_mutual_exclusion_witness :
  holders locked_world ≤ 1
  ∧ fLock (shared locked_world) = Z.of_nat (holders locked_world).
Proof.
  apply (growth_lock_mutual_exclusion 0 2 init [10; 20; 30]
           [0; 0; 0; 0; 1; 1; 1; 1; 2; 2] locked_world).
  - reflexivity.
  - vm_compute. reflexivity.
Defined.

Lemma concurrent_appends_with_room_witness :
  ∃ l w,
    (∀ f, length l < f → to_list 4 f (filled 4 [1]) = Ok l)
    ∧ run 0 4 [0; 1; 2; 0; 1; 2; 2; 2; 1; 0; 0; 1; 2; 2; 2; 2; 0; 1; 1; 0; 0; 1; 1; 1;
         0; 0; 1; 1; 0]
        (spawn (filled 4 [1]) [10; 20; 30]) = Ok w
    ∧ holders w = 0
    ∧ (all_done w = true →
       ∃ l', l' ≡ₚ [10; 20; 30]
             ∧ ∀ f, length l + length [10; 20; 30] < f →
                    to_list 4 f (shared w) = Ok (l ++ l')).
Proof.
  apply (concurrent_appends_with_room 0 4 ltac:(lia)
           ltac:(unfold INT_MAX; lia) (filled 4 [1]) [10; 20; 30]
           [0; 1; 2; 0; 1; 2; 2; 2; 1; 0; 0; 1; 2; 2; 2; 2; 0; 1; 1; 0; 0; 1; 1; 1;
         0; 0; 1; 1; 0]).
  - apply (filled_reachable 4 [1]). vm_compute. reflexivity.
  - vm_compute. discriminate.
  - vm_compute. discriminate.
  - repeat (constructor; [simpl; lia|]). constructor.
Defined.

Lemma iterator_equality_is_position_witness :
  ∃ it it',
    advance 2 2 five (begin five) = Ok it
    ∧ advance 2 5 five (begin five) = Ok it'
    ∧ (iter_eq it it' = true ↔ 2 = 5)
    ∧ ∀ a b : iterator, iter_ne a b = negb (iter_eq a b).
Proof.
  apply (iterator_equality_is_position 0 2 ltac:(lia)
           ltac:(unfold INT_MAX; lia) five [4; 2; 5; 1; 3] 2 5).
  - apply five_reachable.
  - apply five_traversal.
  - simpl. lia.
  - simpl. lia.
Defined.
